(** * dc-bar-mapper: the address-resolution pipeline of
      [backend/process_addresses.py], embedded and verified.

    The embedding follows the script function by function.  Strings are
    sequences of code points, coordinates are binary64 floats, ids are
    integers.  The Google Maps client is a record of functions over an
    outside world that each call may change; a call or a dictionary lookup
    that raises inside a [try] makes the resolver return [None].  The three
    files of a run (input, dataset, failure list) are a record of optional
    contents, and [process_addresses] maps the files, the API key of the
    environment and the world to how the call ends and what it leaves.
    Progress and warning lines printed on the way are not modelled. *)

From Stdlib Require Import String Ascii Bool ZArith NArith Lia List Sorted.
From Stdlib Require Import Floats.PrimFloat.
Import ListNotations.

#[local] Set Warnings "-inexact-float".
Local Open Scope string_scope.
Local Open Scope list_scope.
Local Open Scope Z_scope.

(** ** Python strings

    A Python [str] is a sequence of Unicode code points. *)

Module Str.

Definition char : Type := N.
Definition str : Type := list char.

(** An ASCII literal as a [str]. *)
Definition lit (s : string) : str := map N_of_ascii (list_ascii_of_string s).

Definition eqb (a b : str) : bool :=
  if list_eq_dec N.eq_dec a b then true else false.

(** The code points [str.strip()] removes (CPython's
    [_PyUnicode_IsWhitespace]). *)
Definition isspace (c : char) : bool :=
  ((9 <=? c) && (c <=? 13) || (28 <=? c) && (c <=? 32)
   || (c =? 133) || (c =? 160) || (c =? 5760)
   || (8192 <=? c) && (c <=? 8202)
   || (c =? 8232) || (c =? 8233) || (c =? 8239) || (c =? 8287)
   || (c =? 12288))%N.

Fixpoint lstrip (s : str) : str :=
  match s with
  | [] => []
  | c :: s' => if isspace c then lstrip s' else s
  end.

Definition rstrip (s : str) : str := rev (lstrip (rev s)).

(** [s.strip()] *)
Definition strip (s : str) : str := rstrip (lstrip s).

(** [s.split(sep)] for a one-character separator: never an empty list. *)
Fixpoint split (sep : char) (s : str) : list str :=
  match s with
  | [] => [[]]
  | c :: s' =>
      if (c =? sep)%N then [] :: split sep s'
      else match split sep s' with
           | [] => [[c]]
           | piece :: pieces => (c :: piece) :: pieces
           end
  end.

(** [s.startswith(p)] *)
Fixpoint startswith (p s : str) : bool :=
  match p, s with
  | [], _ => true
  | _ :: _, [] => false
  | a :: p', b :: s' => (a =? b)%N && startswith p' s'
  end.

(** [p in s] *)
Fixpoint contains (p s : str) : bool :=
  startswith p s ||
  match s with
  | [] => false
  | _ :: s' => contains p s'
  end.

(** The text before the first occurrence of [sep] (all of [s] when there
    is none). *)
Fixpoint before_first (sep : char) (s : str) : str :=
  match s with
  | [] => []
  | c :: s' => if (c =? sep)%N then [] else c :: before_first sep s'
  end.

Definition comma : char := 44%N.
Definition hash : char := 35%N.

End Str.

(** ** Bounds validation *)

Module Bounds.

(** [DC_LAT_MIN, DC_LAT_MAX = 38.5, 39.5] and
    [DC_LNG_MIN, DC_LNG_MAX = -77.5, -76.5]: Python floats are IEEE 754
    binary64 numbers, as Rocq's primitive floats are. *)
Definition DC_LAT_MIN : float := 38.5%float.
Definition DC_LAT_MAX : float := 39.5%float.
Definition DC_LNG_MIN : float := (-77.5)%float.
Definition DC_LNG_MAX : float := (-76.5)%float.

(** Python's [a <= b] on floats, as a proposition. *)
Definition fle (a b : float) : Prop := PrimFloat.leb a b = true.

(** [validate_dc_coordinates(lat, lng, address)]; the address is only
    printed in the warning, which the model leaves out. *)
Definition validate_dc_coordinates (lat lng : float) : bool :=
  if negb ((PrimFloat.leb DC_LAT_MIN lat && PrimFloat.leb lat DC_LAT_MAX)
           && (PrimFloat.leb DC_LNG_MIN lng && PrimFloat.leb lng DC_LNG_MAX))
  then false
  else true.

End Bounds.

(** ** The external geocoding client

    Responses are the JSON dictionaries the Google Maps client hands back.
    A field is [None] when its key is missing, so that [d['k']] raises
    [KeyError] there and [d.get('k')] yields [None]. *)

Module Api.
Import Str.

Record LatLng := { lat : option float; lng : option float }.
Record Geometry := { location : option LatLng }.

Record Candidate := { place_id : option str }.
Record PlacesResponse :=
  { places_status : option str; results : option (list Candidate) }.

Record PlaceDetails :=
  { geometry : option Geometry;
    name : option str;
    formatted_address : option str }.
Record DetailsResponse :=
  { details_status : option str; result : option PlaceDetails }.

Record GeocodeResult :=
  { geocode_geometry : option Geometry;
    geocode_formatted_address : option str }.

(** [googlemaps.Client]: every call may change the outside world and may
    raise, which is the answer [None]. *)
Record Client (World : Type) :=
  { places : str -> World -> option PlacesResponse * World;
    place : str -> World -> option DetailsResponse * World;
    geocode : str -> World -> option (list GeocodeResult) * World }.

Arguments places {World}.
Arguments place {World}.
Arguments geocode {World}.

End Api.

(** ** Code that may raise, over the outside world *)

Module Exc.

(** A computation either returns a value or raises; both leave a world. *)
Definition t (World A : Type) : Type := World -> option A * World.

Definition ret {World A} (a : A) : t World A := fun w => (Some a, w).

Definition raise {World A} : t World A := fun w => (None, w).

Definition bind {World A B} (m : t World A) (k : A -> t World B) : t World B :=
  fun w =>
    match m w with
    | (Some a, w') => k a w'
    | (None, w') => (None, w')
    end.

(** [d['k']]: raises when the key is missing. *)
Definition key {World A} (field : option A) : t World A :=
  match field with
  | Some a => ret a
  | None => raise
  end.

(** [try: body  except Exception: return None] around a body that returns
    an optional value. *)
Definition try_or_none {World A} (body : t World (option A)) : World -> option A * World :=
  fun w =>
    match body w with
    | (Some r, w') => (r, w')
    | (None, w') => (None, w')
    end.

End Exc.

Notation "x <- m ;; k" := (Exc.bind m (fun x => k))
  (at level 61, m at next level, right associativity).

(** ** The two resolver tiers *)

Module Resolver.
Import Str.

(** The dictionary a resolver returns: no ['id'] key yet. *)
Record Place :=
  { name : str; address : str; lat : float; lng : float; visible : bool }.

Section WithClient.

Context {World : Type}.
Variable gmaps : Api.Client World.
(** [str.lower()], Unicode case mapping of the Python runtime. *)
Variable lower : str -> str.

(** The query both tiers send: the city is appended unless the input
    already mentions it. *)
Definition with_city (raw_address : str) : str :=
  if negb (contains (lit "washington") (lower raw_address))
     && negb (contains (lit "dc") (lower raw_address))
  then raw_address ++ lit ", Washington DC"
  else raw_address.

Definition is_ok (status : str) : bool := Str.eqb status (lit "OK").

(** Truth value of [places_result.get('results')]. *)
Definition truthy_results (r : option (list Api.Candidate)) : bool :=
  match r with
  | Some (_ :: _) => true
  | _ => false
  end.

Definition find_place_by_name_body (raw_address : str)
  : Exc.t World (option Place) :=
  let search_query := with_city raw_address in
  places_result <- Api.places gmaps search_query ;;
  status <- Exc.key (Api.places_status places_result) ;;
  if is_ok status && truthy_results (Api.results places_result) then
    match Api.results places_result with
    | Some (place :: _) =>
        place_id <- Exc.key (Api.place_id place) ;;
        details <- Api.place gmaps place_id ;;
        dstatus <- Exc.key (Api.details_status details) ;;
        if is_ok dstatus then
          result <- Exc.key (Api.result details) ;;
          geom <- Exc.key (Api.geometry result) ;;
          loc <- Exc.key (Api.location geom) ;;
          lat <- Exc.key (Api.lat loc) ;;
          geom' <- Exc.key (Api.geometry result) ;;
          loc' <- Exc.key (Api.location geom') ;;
          lng <- Exc.key (Api.lng loc') ;;
          let name := match Api.name result with Some n => n | None => [] end in
          let formatted_address :=
            match Api.formatted_address result with Some a => a | None => [] end in
          if negb (Bounds.validate_dc_coordinates lat lng) then Exc.ret None
          else
            Exc.ret (Some {| name := name; address := formatted_address;
                             lat := lat; lng := lng; visible := true |})
        else Exc.ret None
    | _ => Exc.ret None
    end
  else Exc.ret None.

(** [find_place_by_name(gmaps, raw_address)] *)
Definition find_place_by_name (raw_address : str) : World -> option Place * World :=
  Exc.try_or_none (find_place_by_name_body raw_address).

Definition geocode_address_fallback_body (raw_address : str)
  : Exc.t World (option Place) :=
  let search_address := with_city raw_address in
  results <- Api.geocode gmaps search_address ;;
  match results with
  | [] => Exc.ret None
  | result :: _ =>
      geom <- Exc.key (Api.geocode_geometry result) ;;
      loc <- Exc.key (Api.location geom) ;;
      lat <- Exc.key (Api.lat loc) ;;
      geom' <- Exc.key (Api.geocode_geometry result) ;;
      loc' <- Exc.key (Api.location geom') ;;
      lng <- Exc.key (Api.lng loc') ;;
      formatted_address <- Exc.key (Api.geocode_formatted_address result) ;;
      let name := strip (hd [] (split comma raw_address)) in
      let _ := Bounds.validate_dc_coordinates lat lng in
      Exc.ret (Some {| name := name; address := formatted_address;
                       lat := lat; lng := lng; visible := true |})
  end.

(** [geocode_address_fallback(gmaps, raw_address)] *)
Definition geocode_address_fallback (raw_address : str)
  : World -> option Place * World :=
  Exc.try_or_none (geocode_address_fallback_body raw_address).

(** [geocode_address(gmaps, raw_address)]: a returned dictionary is never
    empty, hence always truthy. *)
Definition geocode_address (raw_address : str) : World -> option Place * World :=
  fun w =>
    match find_place_by_name raw_address w with
    | (Some result, w') => (Some result, w')
    | (None, w') =>
        match geocode_address_fallback raw_address w' with
        | (Some result, w'') => (Some result, w'')
        | (None, w'') => (None, w'')
        end
    end.

(** The venue tier gets an answer at the coordinates [(la, ln)]: the
    search is OK with a first candidate, and the details of that candidate
    are OK and carry the coordinates. *)
Definition venue_answer (raw_address : str) (w : World) (la ln : float)
    (w2 : World) : Prop :=
  exists pr c cs pid dr d g l w1,
    Api.places gmaps (with_city raw_address) w = (Some pr, w1) /\
    Api.places_status pr = Some (lit "OK") /\
    Api.results pr = Some (c :: cs) /\
    Api.place_id c = Some pid /\
    Api.place gmaps pid w1 = (Some dr, w2) /\
    Api.details_status dr = Some (lit "OK") /\
    Api.result dr = Some d /\
    Api.geometry d = Some g /\
    Api.location g = Some l /\
    Api.lat l = Some la /\
    Api.lng l = Some ln.

(** The geocoder gets an answer: a first result with the coordinates
    [(la, ln)] and the formatted address [fa]. *)
Definition geocoder_answer (raw_address : str) (w : World) (la ln : float)
    (fa : str) (w1 : World) : Prop :=
  exists gr rest g l,
    Api.geocode gmaps (with_city raw_address) w = (Some (gr :: rest), w1) /\
    Api.geocode_geometry gr = Some g /\
    Api.location g = Some l /\
    Api.lat l = Some la /\
    Api.lng l = Some ln /\
    Api.geocode_formatted_address gr = Some fa.

End WithClient.

End Resolver.

(** ** The dataset, the files and the run *)

Module Pipeline.
Import Str.

(** A record of the dataset: a resolver's dictionary with its ['id']. *)
Record Address :=
  { id : Z; name : str; address : str; lat : float; lng : float;
    visible : bool }.

(** [result['id'] = next_id] *)
Definition with_id (result : Resolver.Place) (next_id : Z) : Address :=
  {| id := next_id;
     name := Resolver.name result;
     address := Resolver.address result;
     lat := Resolver.lat result;
     lng := Resolver.lng result;
     visible := Resolver.visible result |}.

(** A row of [addresses.csv] as [csv.DictReader] yields it, each column
    through the conversion [read_existing_addresses] applies to it
    ([int(row['id'])], [row['name']], [row['address']], [float(row['lat'])],
    [float(row['lng'])], [row['visible'].lower() == 'true']); [None] where
    that expression raises. *)
Record CsvRow :=
  { row_id : option Z;
    row_name : option str;
    row_address : option str;
    row_lat : option float;
    row_lng : option float;
    row_visible : option bool }.

(** The dictionary built from a row, or [None] when building it raises. *)
Definition parse_row (row : CsvRow) : option Address :=
  match row_id row, row_name row, row_address row,
        row_lat row, row_lng row, row_visible row with
  | Some i, Some n, Some a, Some la, Some ln, Some v =>
      Some {| id := i; name := n; address := a; lat := la; lng := ln;
              visible := v |}
  | _, _, _, _, _, _ => None
  end.

(** The row [csv.DictWriter] writes for a record, as a later read sees it. *)
Definition row_of_address (a : Address) : CsvRow :=
  {| row_id := Some (id a);
     row_name := Some (name a);
     row_address := Some (address a);
     row_lat := Some (lat a);
     row_lng := Some (lng a);
     row_visible := Some (visible a) |}.

(** The three files next to the script; [None] when a file does not exist.
    The input file is its lines; the failure file is the lines written to
    it.  The input file is taken to be a file of its own: a run told to
    read [addresses.csv] or [addresses_failed.txt] as its input is not
    covered. *)
Record Files :=
  { input_file : option (list str);
    csv_file : option (list CsvRow);
    failed_file : option (list str) }.

(** The reading loop of [read_existing_addresses]: the first row that
    raises ends it, and what was read so far is kept. *)
Fixpoint read_rows (rows : list CsvRow) (addresses : list Address) (max_id : Z)
  : list Address * Z :=
  match rows with
  | [] => (addresses, max_id)
  | row :: rows' =>
      match parse_row row with
      | Some a => read_rows rows' (addresses ++ [a]) (Z.max max_id (id a))
      | None => (addresses, max_id)
      end
  end.

(** [read_existing_addresses(csv_path)] *)
Definition read_existing_addresses (csv : option (list CsvRow))
  : list Address * Z :=
  match csv with
  | None => ([], 0)
  | Some rows => read_rows rows [] 0
  end.

(** [write_addresses_csv(addresses, csv_path)] *)
Definition write_addresses_csv (addresses : list Address) (fs : Files) : Files :=
  {| input_file := input_file fs;
     csv_file := Some (map row_of_address addresses);
     failed_file := failed_file fs |}.

(** The lines kept from the input file: stripped, non-empty, not a
    comment. *)
Fixpoint read_raw_addresses (lines : list str) : list str :=
  match lines with
  | [] => []
  | line :: lines' =>
      let line := strip line in
      match line with
      | [] => read_raw_addresses lines'
      | _ :: _ =>
          if negb (startswith [hash] line)
          then line :: read_raw_addresses lines'
          else read_raw_addresses lines'
      end
  end.

(** A record without its id. *)
Definition place_of (a : Address) : Resolver.Place :=
  {| Resolver.name := name a;
     Resolver.address := address a;
     Resolver.lat := lat a;
     Resolver.lng := lng a;
     Resolver.visible := visible a |}.

(** The variables of the loop over the raw addresses. *)
Record Run :=
  { addresses : list Address;
    next_id : Z;
    successful : nat;
    failed : list str }.

Section WithClient.

Context {World : Type}.
Variable gmaps : Api.Client World.
Variable lower : str -> str.

(** One turn of the loop. *)
Definition process_one (raw_address : str) (r : Run) (w : World) : Run * World :=
  match Resolver.geocode_address gmaps lower raw_address w with
  | (Some result, w') =>
      ({| addresses := addresses r ++ [with_id result (next_id r)];
          next_id := next_id r + 1;
          successful := S (successful r);
          failed := failed r |}, w')
  | (None, w') =>
      ({| addresses := addresses r;
          next_id := next_id r;
          successful := successful r;
          failed := failed r ++ [raw_address] |}, w')
  end.

(** [for i, raw_address in enumerate(raw_addresses, 1): ...] *)
Fixpoint process_each (raw_addresses : list str) (r : Run) (w : World)
  : Run * World :=
  match raw_addresses with
  | [] => (r, w)
  | raw_address :: rest =>
      let '(r', w') := process_one raw_address r w in
      process_each rest r' w'
  end.

End WithClient.

(** The loop variables when the loop is entered: the dataset loaded (or
    not) and [next_id += 1] done. *)
Definition start (append_mode : bool) (fs : Files) : Run :=
  let '(addresses, next_id) :=
    if negb append_mode then ([], 1) else read_existing_addresses (csv_file fs) in
  {| addresses := addresses; next_id := next_id + 1;
     successful := 0; failed := [] |}.

(** The writes after the loop: the dataset when it is not empty, then the
    failure file, written or removed. *)
Definition write_results (r : Run) (fs : Files) : Files :=
  let fs1 :=
    match addresses r with
    | _ :: _ => write_addresses_csv (addresses r) fs
    | [] => fs
    end in
  match failed r with
  | _ :: _ =>
      {| input_file := input_file fs1; csv_file := csv_file fs1;
         failed_file := Some (failed r) |}
  | [] =>
      match failed_file fs1 with
      | Some _ =>
          {| input_file := input_file fs1; csv_file := csv_file fs1;
             failed_file := None |}
      | None => fs1
      end
  end.

(** [os.getenv('GOOGLE_MAPS_API_KEY')] when it is truthy: neither unset nor
    empty. *)
Definition key_set (api_key : option str) : option str :=
  match api_key with
  | Some (c :: k) => Some (c :: k)
  | _ => None
  end.

(** How a call of [process_addresses] ends: [sys.exit(code)], an exception
    nobody catches, the early [return], or the end of the function with the
    loop variables as they are then. *)
Inductive Outcome :=
| SysExit (code : Z)
| Uncaught
| NoAddresses
| Completed (run : Run).

Section WithEnvironment.

Context {World : Type}.
(** [googlemaps.Client(key=api_key)]: the library refuses some keys by
    raising. *)
Variable connect : str -> option (Api.Client World).
Variable lower : str -> str.

(** [process_addresses(input_file, append_mode)], from the files, the
    environment's API key and the outside world to how the call ends, the
    files and the world it leaves. *)
Definition process_addresses (append_mode : bool) (api_key : option str)
    (fs : Files) (w : World) : Outcome * Files * World :=
  match input_file fs with
  | None => (SysExit 1, fs, w)
  | Some lines =>
      let raw_addresses := read_raw_addresses lines in
      match raw_addresses with
      | [] => (NoAddresses, fs, w)
      | _ :: _ =>
          match key_set api_key with
          | None => (SysExit 1, fs, w)
          | Some k =>
              match connect k with
              | None => (Uncaught, fs, w)
              | Some gmaps =>
                  let r0 := start append_mode fs in
                  let '(r, w') := process_each gmaps lower raw_addresses r0 w in
                  (Completed r, write_results r fs, w')
              end
          end
      end
  end.

End WithEnvironment.

(** *** What a run is meant to produce, for comparison with the loop *)

Section Meaning.

Context {World : Type}.
Variable gmaps : Api.Client World.
Variable lower : str -> str.

(** Every input line with the answer of the two tiers, in input order. *)
Fixpoint resolve_all (raw_addresses : list str) (w : World)
  : list (str * option Resolver.Place) * World :=
  match raw_addresses with
  | [] => ([], w)
  | raw_address :: rest =>
      let '(answer, w') := Resolver.geocode_address gmaps lower raw_address w in
      let '(answers, w'') := resolve_all rest w' in
      ((raw_address, answer) :: answers, w'')
  end.

End Meaning.

(** The places found, in input order. *)
Fixpoint resolved_of (answers : list (str * option Resolver.Place))
  : list Resolver.Place :=
  match answers with
  | [] => []
  | (_, Some place) :: rest => place :: resolved_of rest
  | (_, None) :: rest => resolved_of rest
  end.

(** The lines nothing was found for, in input order. *)
Fixpoint failed_of (answers : list (str * option Resolver.Place)) : list str :=
  match answers with
  | [] => []
  | (_, Some _) :: rest => failed_of rest
  | (raw_address, None) :: rest => raw_address :: failed_of rest
  end.

(** Records numbered [first], [first + 1], ... *)
Fixpoint number (first : Z) (places : list Resolver.Place) : list Address :=
  match places with
  | [] => []
  | place :: rest => with_id place first :: number (first + 1) rest
  end.

(** [first], [first + 1], ..., [count] of them. *)
Fixpoint ids_from (first : Z) (count : nat) : list Z :=
  match count with
  | O => []
  | S n => first :: ids_from (first + 1) n
  end.

(** The largest of 0 and the ids of the records. *)
Definition max_id_of (records : list Address) : Z :=
  fold_right Z.max 0 (map id records).

(** The records an append run finds in the dataset file: those of its
    rows, in order, up to the first row that does not convert (all of them
    when every row converts); none when there is no file. *)
Definition loaded_from (csv : option (list CsvRow)) (existing : list Address)
  : Prop :=
  match csv with
  | None => existing = []
  | Some rows =>
      exists rest,
        rows = map row_of_address existing ++ rest /\
        match rest with
        | [] => True
        | bad :: _ => parse_row bad = None
        end
  end.

(** The invariant the merger state is documented with: the next id is one
    above the largest id, and 1 for an empty dataset. *)
Definition merger_invariant (records : list Address) (next : Z) : Prop :=
  match records with
  | [] => next = 1
  | a :: rest => next = fold_right Z.max (id a) (map id rest) + 1
  end.

(** A line as the resolvers get it: stripped, not empty, not a comment. *)
Definition clean (raw : str) : Prop :=
  raw <> [] /\ strip raw = raw /\ startswith [hash] raw = false.

(** The loop variables a call ends with, the initial ones of an empty
    dataset when the loop was not reached. *)
Definition run_of (o : Outcome) : Run :=
  match o with
  | Completed r => r
  | _ => {| addresses := []; next_id := 0; successful := 0; failed := [] |}
  end.

(** The failed entries of a call, none when the loop was not reached. *)
Definition failed_entries (o : Outcome) : list str :=
  match o with
  | Completed r => failed r
  | _ => []
  end.

End Pipeline.

(** ** The record-store layer of [backend/main.py]

    It works on the same [addresses.csv]; the raw input of the script run
    without arguments, [addresses_raw.txt], is the input file. *)

Module Server.
Import Str.

(** What a handler answers: a value, or [raise HTTPException(status_code)]. *)
Inductive Response (A : Type) :=
| Ok (a : A)
| HTTPException (status_code : Z).

Arguments Ok {A}.
Arguments HTTPException {A}.

(** [AddressCreate] *)
Record AddressCreate :=
  { create_name : str; create_address_text : str;
    create_lat : float; create_lng : float }.

(** [AddressUpdate]: a field is [None] when the request leaves it out. *)
Record AddressUpdate :=
  { update_name : option str;
    update_address_text : option str;
    update_lat : option float;
    update_lng : option float;
    update_visible : option bool }.

(** The rows of the reading loop of [read_addresses], [None] as soon as one
    raises. *)
Fixpoint parse_rows (rows : list Pipeline.CsvRow) : option (list Pipeline.Address) :=
  match rows with
  | [] => Some []
  | row :: rows' =>
      match Pipeline.parse_row row with
      | Some a =>
          match parse_rows rows' with
          | Some l => Some (a :: l)
          | None => None
          end
      | None => None
      end
  end.

(** [read_addresses()]: nothing when the file is missing, and nothing when
    reading it raises. *)
Definition read_addresses (fs : Pipeline.Files) : list Pipeline.Address :=
  match Pipeline.csv_file fs with
  | None => []
  | Some rows =>
      match parse_rows rows with
      | Some addresses => addresses
      | None => []
      end
  end.

(** [write_addresses(addresses)] *)
Definition write_addresses (addresses : list Pipeline.Address) (fs : Pipeline.Files)
  : Pipeline.Files :=
  {| Pipeline.input_file := Pipeline.input_file fs;
     Pipeline.csv_file := Some (map Pipeline.row_of_address addresses);
     Pipeline.failed_file := Pipeline.failed_file fs |}.

(** [max(addr.id for addr in addresses)] of a list that is not empty. *)
Definition max_id (first : Pipeline.Address) (rest : list Pipeline.Address) : Z :=
  fold_left Z.max (map Pipeline.id rest) (Pipeline.id first).

(** [get_next_id(addresses)] *)
Definition get_next_id (addresses : list Pipeline.Address) : Z :=
  match addresses with
  | [] => 1
  | first :: rest => max_id first rest + 1
  end.

(** [create_address(address)]: the record returned and the files left. *)
Definition create_address (address : AddressCreate) (fs : Pipeline.Files)
  : Pipeline.Address * Pipeline.Files :=
  let addresses := read_addresses fs in
  let new_id := get_next_id addresses in
  let new_address :=
    {| Pipeline.id := new_id;
       Pipeline.name := create_name address;
       Pipeline.address := create_address_text address;
       Pipeline.lat := create_lat address;
       Pipeline.lng := create_lng address;
       Pipeline.visible := true |} in
  (new_address, write_addresses (addresses ++ [new_address]) fs).

(** [delete_address(address_id)] *)
Definition delete_address (address_id : Z) (fs : Pipeline.Files)
  : Response unit * Pipeline.Files :=
  let addresses := read_addresses fs in
  let updated_addresses :=
    filter (fun addr => negb (Pipeline.id addr =? address_id)) addresses in
  if (length updated_addresses =? length addresses)%nat
  then (HTTPException 404, fs)
  else (Ok tt, write_addresses updated_addresses fs).

(** The assignments of [update_address] to the record found. *)
Definition apply_update (update : AddressUpdate) (addr : Pipeline.Address)
  : Pipeline.Address :=
  let name := match update_name update with
              | Some n => n | None => Pipeline.name addr end in
  let address := match update_address_text update with
                 | Some a => a | None => Pipeline.address addr end in
  let lat := match update_lat update with
             | Some l => l | None => Pipeline.lat addr end in
  let lng := match update_lng update with
             | Some l => l | None => Pipeline.lng addr end in
  let visible := match update_visible update with
                 | Some v => v | None => Pipeline.visible addr end in
  {| Pipeline.id := Pipeline.id addr; Pipeline.name := name;
     Pipeline.address := address; Pipeline.lat := lat; Pipeline.lng := lng;
     Pipeline.visible := visible |}.

(** The loop of [update_address]: the first record with the id is changed
    in place; the record and the list as it is then, or [None] when the
    loop ends without a match. *)
Fixpoint update_first (address_id : Z) (update : AddressUpdate)
    (addresses : list Pipeline.Address)
  : option (Pipeline.Address * list Pipeline.Address) :=
  match addresses with
  | [] => None
  | addr :: rest =>
      if Pipeline.id addr =? address_id
      then Some (apply_update update addr, apply_update update addr :: rest)
      else match update_first address_id update rest with
           | Some (found, rest') => Some (found, addr :: rest')
           | None => None
           end
  end.

(** [update_address(address_id, update)] *)
Definition update_address (address_id : Z) (update : AddressUpdate)
    (fs : Pipeline.Files) : Response Pipeline.Address * Pipeline.Files :=
  match update_first address_id update (read_addresses fs) with
  | Some (addr, addresses) => (Ok addr, write_addresses addresses fs)
  | None => (HTTPException 404, fs)
  end.

Section WithEnvironment.

Context {World : Type}.
Variable connect : str -> option (Api.Client World).
Variable lower : str -> str.

(** [subprocess.run(["python", str(PROCESS_SCRIPT)], ...)]: the script
    without arguments reads [addresses_raw.txt] and overwrites.  The return
    code is that of [sys.exit], 1 after an exception nobody catches, and 0
    otherwise. *)
Definition run_script (api_key : option str) (fs : Pipeline.Files) (w : World)
  : Z * Pipeline.Files * World :=
  match Pipeline.process_addresses connect lower false api_key fs w with
  | (Pipeline.SysExit code, fs', w') => (code, fs', w')
  | (Pipeline.Uncaught, fs', w') => (1, fs', w')
  | (Pipeline.NoAddresses, fs', w') => (0, fs', w')
  | (Pipeline.Completed _, fs', w') => (0, fs', w')
  end.

(** [process_addresses()], the handler of [POST /api/addresses/process]:
    [check=True] turns a return code other than 0 into
    [CalledProcessError], answered with the status 500. *)
Definition process_addresses (api_key : option str) (fs : Pipeline.Files) (w : World)
  : Response unit * Pipeline.Files * World :=
  match Pipeline.input_file fs with
  | None => (HTTPException 404, fs, w)
  | Some _ =>
      let '(returncode, fs', w') := run_script api_key fs w in
      if returncode =? 0 then (Ok tt, fs', w')
      else (HTTPException 500, fs', w')
  end.

(** [startup_event()]: a failure of the script is printed, not raised. *)
Definition startup_event (api_key : option str) (fs : Pipeline.Files) (w : World)
  : Pipeline.Files * World :=
  match Pipeline.csv_file fs, Pipeline.input_file fs with
  | None, Some _ =>
      let '(_, fs', w') := run_script api_key fs w in (fs', w')
  | _, _ => (fs, w)
  end.

End WithEnvironment.

End Server.

(** ** Counting the calls of a client *)

Module Metered.
Import Str.

(** The client [gmaps] with a counter of the calls made beside its world. *)
Definition counting {World : Type} (gmaps : Api.Client World)
  : Api.Client (World * nat) :=
  {| Api.places := fun query wn =>
       let '(answer, w') := Api.places gmaps query (fst wn) in
       (answer, (w', S (snd wn)));
     Api.place := fun place_id wn =>
       let '(answer, w') := Api.place gmaps place_id (fst wn) in
       (answer, (w', S (snd wn)));
     Api.geocode := fun query wn =>
       let '(answer, w') := Api.geocode gmaps query (fst wn) in
       (answer, (w', S (snd wn))) |}.

End Metered.

(** ** A deterministic stand-in for the geocoding client

    The world is the number of calls made so far.  Inputs that mention
    "Smithsonian" are a venue inside the box; inputs that mention "Boston"
    are found by both tiers outside the box; inputs that mention "Fake St"
    are found by the geocoder alone, inside the box; nothing else is
    found. *)

Module Fake.
Import Str.

Definition lower (s : str) : str :=
  map (fun c => if ((65 <=? c) && (c <=? 90))%N then (c + 32)%N else c) s.

Definition at_point (la ln : float) : option Api.Geometry :=
  Some {| Api.location := Some {| Api.lat := Some la; Api.lng := Some ln |} |}.

Definition places (query : str) (calls : nat) : option Api.PlacesResponse * nat :=
  (Some
     (if contains (lit "Smithsonian") query then
        {| Api.places_status := Some (lit "OK");
           Api.results := Some [ {| Api.place_id := Some (lit "castle") |} ] |}
      else if contains (lit "Boston") query then
        {| Api.places_status := Some (lit "OK");
           Api.results := Some [ {| Api.place_id := Some (lit "common") |} ] |}
      else
        {| Api.places_status := Some (lit "ZERO_RESULTS");
           Api.results := Some [] |}),
   S calls).

Definition place (place_id : str) (calls : nat) : option Api.DetailsResponse * nat :=
  (if Str.eqb place_id (lit "castle") then
     Some {| Api.details_status := Some (lit "OK");
             Api.result :=
               Some {| Api.geometry := at_point 38.8888 (-77.026);
                       Api.name := Some (lit "Smithsonian Castle");
                       Api.formatted_address :=
                         Some (lit "1000 Jefferson Dr SW, Washington, DC 20560") |} |}
   else if Str.eqb place_id (lit "common") then
     Some {| Api.details_status := Some (lit "OK");
             Api.result :=
               Some {| Api.geometry := at_point 42.355 (-71.0656);
                       Api.name := Some (lit "Boston Common");
                       Api.formatted_address := Some (lit "Boston, MA 02116") |} |}
   else None,
   S calls).

Definition geocode (query : str) (calls : nat) : option (list Api.GeocodeResult) * nat :=
  (Some
     (if contains (lit "Fake St") query then
        [ {| Api.geocode_geometry := at_point 38.9 (-77.0);
             Api.geocode_formatted_address :=
               Some (lit "123 Fake St, Washington, DC 20001") |} ]
      else if contains (lit "Boston") query then
        [ {| Api.geocode_geometry := at_point 42.355 (-71.0656);
             Api.geocode_formatted_address := Some (lit "Boston, MA 02116") |} ]
      else []),
   S calls).

Definition gmaps : Api.Client nat :=
  {| Api.places := places; Api.place := place; Api.geocode := geocode |}.

(** The library accepts the keys that start with "AIza". *)
Definition connect (api_key : str) : option (Api.Client nat) :=
  if startswith (lit "AIza") api_key then Some gmaps else None.

Definition api_key : option str := Some (lit "AIzaKey").

Definition old_record : Pipeline.CsvRow :=
  {| Pipeline.row_id := Some 5;
     Pipeline.row_name := Some (lit "Old Ebbitt Grill");
     Pipeline.row_address := Some (lit "675 15th St NW, Washington, DC 20005");
     Pipeline.row_lat := Some 38.898%float;
     Pipeline.row_lng := Some (-77.0336)%float;
     Pipeline.row_visible := Some true |}.

Definition files (lines : list string) (csv : option (list Pipeline.CsvRow))
    (stale : option (list string)) : Pipeline.Files :=
  {| Pipeline.input_file := Some (map lit lines);
     Pipeline.csv_file := csv;
     Pipeline.failed_file := option_map (map lit) stale |}.

End Fake.

(** * Properties *)

Import Str.

(** ** Strings *)

Lemma split_nonempty sep s : split sep s <> [].
Proof.
  destruct s as [|c s]; simpl; [discriminate|].
  destruct (c =? sep)%N; [discriminate|].
  destruct (split sep s); discriminate.
Qed.

(** [s.split(sep)[0]] is the text before the first separator. *)
Lemma split_first sep s : hd [] (split sep s) = before_first sep s.
Proof.
  induction s as [|c s IH]; simpl; [reflexivity|].
  destruct (c =? sep)%N; [reflexivity|].
  destruct (split sep s) as [|piece pieces] eqn:E.
  - now apply split_nonempty in E.
  - simpl in *. now rewrite IH.
Qed.

Lemma before_first_cut sep s :
  exists rest,
    s = before_first sep s ++ rest /\
    ~ In sep (before_first sep s) /\
    (rest = [] \/ exists rest', rest = sep :: rest').
Proof.
  induction s as [|c s (rest & Hs & Hin & Hrest)]; simpl.
  - exists []. intuition.
  - destruct (N.eqb_spec c sep) as [->|Hc].
    + exists (sep :: s). split; [reflexivity|]. split; [tauto|]. right. now exists s.
    + exists rest. split; [simpl; congruence|]. split; [|exact Hrest].
      simpl. intros [H|H]; [congruence|tauto].
Qed.

Lemma lstrip_cut s :
  exists l, s = l ++ lstrip s /\ Forall (fun c => isspace c = true) l.
Proof.
  induction s as [|c s (l & Hs & Hl)]; simpl.
  - exists []. split; [reflexivity|constructor].
  - destruct (isspace c) eqn:E.
    + exists (c :: l). split; [simpl; congruence|now constructor].
    + exists []. split; [reflexivity|constructor].
Qed.

Lemma lstrip_head s c t : lstrip s = c :: t -> isspace c = false.
Proof.
  induction s as [|d s IH]; simpl; [discriminate|].
  destruct (isspace d) eqn:E; [exact IH|].
  intros [= <- _]. exact E.
Qed.

Lemma rstrip_cut s :
  exists r, s = rstrip s ++ r /\ Forall (fun c => isspace c = true) r.
Proof.
  unfold rstrip. destruct (lstrip_cut (rev s)) as (l & Hs & Hl).
  exists (rev l). split.
  - rewrite <- rev_app_distr, <- Hs. now rewrite rev_involutive.
  - now apply Forall_rev.
Qed.

Lemma rstrip_last s t c : rstrip s = t ++ [c] -> isspace c = false.
Proof.
  unfold rstrip. intros H.
  apply (f_equal (@rev _)) in H.
  rewrite rev_involutive, rev_app_distr in H. simpl in H.
  now apply lstrip_head in H.
Qed.

(** What [strip] does: it cuts a run of whitespace off each end, and what
    is left neither starts nor ends with whitespace. *)
Lemma strip_cut s :
  exists l r,
    s = l ++ strip s ++ r /\
    Forall (fun c => isspace c = true) l /\
    Forall (fun c => isspace c = true) r /\
    (forall c t, strip s = c :: t -> isspace c = false) /\
    (forall c t, strip s = t ++ [c] -> isspace c = false).
Proof.
  unfold strip.
  destruct (lstrip_cut s) as (l & Hs & Hl).
  destruct (rstrip_cut (lstrip s)) as (r & Hm & Hr).
  exists l, r. repeat split; auto.
  - now rewrite <- Hm.
  - intros c t E. rewrite E in Hm. simpl in Hm.
    now apply lstrip_head in Hm.
  - intros c t E. now apply rstrip_last in E.
Qed.

(** ** Bounds validation *)

(** C4: the validator answers true exactly on the closed box
    38.5 <= lat <= 39.5, -77.5 <= lng <= -76.5.  (38.9, -77.0) and the
    corners of the box are accepted; (40.0, -77.0), the points just off
    each side and a coordinate that is not a number are rejected. *)
Theorem validate_dc_coordinates_box :
  (forall lat lng,
      Bounds.validate_dc_coordinates lat lng = true <->
      (Bounds.fle 38.5 lat /\ Bounds.fle lat 39.5) /\
      (Bounds.fle (-77.5) lng /\ Bounds.fle lng (-76.5))) /\
  Bounds.validate_dc_coordinates 40.0 (-77.0) = false /\
  Bounds.validate_dc_coordinates 38.9 (-77.0) = true /\
  (Bounds.validate_dc_coordinates 38.5 (-77.5) = true /\
   Bounds.validate_dc_coordinates 39.5 (-76.5) = true) /\
  (Bounds.validate_dc_coordinates (next_down 38.5) (-77.0) = false /\
   Bounds.validate_dc_coordinates (next_up 39.5) (-77.0) = false /\
   Bounds.validate_dc_coordinates 38.9 (next_down (-77.5)) = false /\
   Bounds.validate_dc_coordinates 38.9 (next_up (-76.5)) = false) /\
  (Bounds.validate_dc_coordinates nan (-77.0) = false /\
   Bounds.validate_dc_coordinates 38.9 nan = false).
Proof.
  split; [| repeat split; reflexivity].
  intros lat lng. unfold Bounds.validate_dc_coordinates, Bounds.fle.
  unfold Bounds.DC_LAT_MIN, Bounds.DC_LAT_MAX, Bounds.DC_LNG_MIN, Bounds.DC_LNG_MAX.
  destruct (PrimFloat.leb 38.5 lat), (PrimFloat.leb lat 39.5),
    (PrimFloat.leb (-77.5) lng), (PrimFloat.leb lng (-76.5)); simpl;
    intuition congruence.
Qed.

(** ** The resolver tiers *)

Ltac run_exc :=
  unfold Exc.try_or_none, Exc.bind, Exc.key, Exc.ret, Exc.raise in *.

(** Case analysis on the innermost scrutinee of a hypothesis, dropping the
    cases that contradict it. *)
Ltac split_matches H :=
  repeat match type of H with
         | context [match ?x with _ => _ end] =>
             lazymatch x with
             | context [match _ with _ => _ end] => fail
             | _ => destruct x eqn:?; try discriminate H; cbn beta iota in H
             end
         end.

(** A place the venue tier returns lies inside the box. *)
Lemma find_place_by_name_in_box {World} (gmaps : Api.Client World) lower raw w p w' :
  Resolver.find_place_by_name gmaps lower raw w = (Some p, w') ->
  Bounds.validate_dc_coordinates (Resolver.lat p) (Resolver.lng p) = true.
Proof.
  unfold Resolver.find_place_by_name, Resolver.find_place_by_name_body.
  run_exc. intros H. split_matches H.
  all: injection H as <- _; simpl.
  all: match goal with
       | E : negb _ = false |- _ => now apply negb_false_iff in E
       end.
Qed.

(** What the fallback returns when it returns a place. *)
Lemma geocode_address_fallback_some {World} (gmaps : Api.Client World) lower raw w p w' :
  Resolver.geocode_address_fallback gmaps lower raw w = (Some p, w') ->
  exists la ln fa,
    Resolver.geocoder_answer gmaps lower raw w la ln fa w' /\
    p = {| Resolver.name := strip (hd [] (split comma raw));
           Resolver.address := fa;
           Resolver.lat := la; Resolver.lng := ln;
           Resolver.visible := true |}.
Proof.
  unfold Resolver.geocode_address_fallback, Resolver.geocode_address_fallback_body.
  run_exc. intros H.
  destruct (Api.geocode gmaps (Resolver.with_city lower raw) w) as [[[|gr rest]|] w1] eqn:Eg;
    try discriminate H.
  destruct (Api.geocode_geometry gr) as [g|] eqn:E1; try discriminate H.
  destruct (Api.location g) as [l|] eqn:E2; try discriminate H.
  destruct (Api.lat l) as [la|] eqn:E3; try discriminate H.
  destruct (Api.lng l) as [ln|] eqn:E4; try discriminate H.
  destruct (Api.geocode_formatted_address gr) as [fa|] eqn:E5; try discriminate H.
  injection H as <- <-.
  exists la, ln, fa. split; [|reflexivity].
  exists gr, rest, g, l. repeat split; assumption.
Qed.

(** C5: bounds validation is asymmetric between the tiers.  When the venue
    search gets an answer whose coordinates fail the validation, it returns
    nothing (and whatever it does return lies inside the box); when the
    geocode fallback gets an answer whose coordinates fail the validation,
    it returns the record all the same. *)
Theorem bounds_validation_asymmetric {World} (gmaps : Api.Client World)
    lower raw w la ln :
  Bounds.validate_dc_coordinates la ln = false ->
  (forall w2,
      Resolver.venue_answer gmaps lower raw w la ln w2 ->
      Resolver.find_place_by_name gmaps lower raw w = (None, w2)) /\
  (forall p w',
      Resolver.find_place_by_name gmaps lower raw w = (Some p, w') ->
      Bounds.validate_dc_coordinates (Resolver.lat p) (Resolver.lng p) = true) /\
  (forall fa w1,
      Resolver.geocoder_answer gmaps lower raw w la ln fa w1 ->
      Resolver.geocode_address_fallback gmaps lower raw w =
        (Some {| Resolver.name := strip (before_first comma raw);
                 Resolver.address := fa;
                 Resolver.lat := la; Resolver.lng := ln;
                 Resolver.visible := true |}, w1)).
Proof.
  intros Hout. split; [|split].
  - intros w2 (pr & c & cs & pid & dr & d & g & l & w1 &
               Hp & Hs & Hr & Hid & Hd & Hds & Hres & Hg & Hl & Hla & Hln).
    unfold Resolver.find_place_by_name, Resolver.find_place_by_name_body.
    run_exc. rewrite Hp, Hs, Hr. simpl. rewrite Hid, Hd, Hds. simpl.
    rewrite Hres, Hg, Hl, Hla, Hln, Hout. reflexivity.
  - intros p w'. apply find_place_by_name_in_box.
  - intros fa w1 (gr & rest & g & l & Hg & Hgeo & Hl & Hla & Hln & Hfa).
    unfold Resolver.geocode_address_fallback, Resolver.geocode_address_fallback_body.
    run_exc. rewrite Hg, Hgeo, Hl, Hla, Hln, Hfa, split_first. reflexivity.
Qed.

Lemma bounds_validation_asymmetric_witness :
  Resolver.find_place_by_name Fake.gmaps Fake.lower (lit "Boston Common") 0%nat
    = (None, 2%nat) /\
  exists p,
    Resolver.geocode_address_fallback Fake.gmaps Fake.lower (lit "Boston Common") 0%nat
      = (Some p, 1%nat) /\
    Resolver.name p = lit "Boston Common" /\
    Bounds.validate_dc_coordinates (Resolver.lat p) (Resolver.lng p) = false.
Proof.
  destruct (bounds_validation_asymmetric Fake.gmaps Fake.lower
              (lit "Boston Common") 0%nat 42.355%float (-71.0656)%float
              eq_refl) as (Hvenue & _ & Hfallback).
  split.
  - apply Hvenue.
    exists {| Api.places_status := Some (lit "OK");
              Api.results := Some [ {| Api.place_id := Some (lit "common") |} ] |},
      {| Api.place_id := Some (lit "common") |}, [], (lit "common").
    eexists. eexists. eexists. eexists. exists 1%nat.
    repeat split; reflexivity.
  - eexists. split.
    + apply Hfallback with (fa := lit "Boston, MA 02116").
      eexists. exists []. eexists. eexists.
      repeat split; reflexivity.
    + split; reflexivity.
Defined.

(** C6: when the geocode fallback succeeds, the name of the record is the
    raw input before its first comma, stripped of surrounding whitespace:
    the input is whitespace, the name, whitespace, and then nothing or a
    comma and the rest.  "123 Fake St, Washington DC" is named
    "123 Fake St".  No client makes the fallback return another name for
    the same input. *)
Theorem fallback_name_from_input {World} (gmaps : Api.Client World)
    lower raw w p w' :
  Resolver.geocode_address_fallback gmaps lower raw w = (Some p, w') ->
  Resolver.name p = strip (before_first comma raw) /\
  (exists l r rest,
      raw = (l ++ Resolver.name p ++ r) ++ rest /\
      Forall (fun c => isspace c = true) l /\
      Forall (fun c => isspace c = true) r /\
      ~ In comma (l ++ Resolver.name p ++ r) /\
      (rest = [] \/ exists rest', rest = comma :: rest') /\
      (forall c t, Resolver.name p = c :: t -> isspace c = false) /\
      (forall c t, Resolver.name p = t ++ [c] -> isspace c = false)) /\
  strip (before_first comma (lit "123 Fake St, Washington DC")) = lit "123 Fake St" /\
  (forall World' (gmaps' : Api.Client World') lower' v q v',
      Resolver.geocode_address_fallback gmaps' lower' raw v = (Some q, v') ->
      Resolver.name q = Resolver.name p).
Proof.
  intros H.
  assert (Hname : Resolver.name p = strip (before_first comma raw)).
  { apply geocode_address_fallback_some in H as (la & ln & fa & _ & ->).
    simpl. now rewrite split_first. }
  split; [exact Hname|]. split; [|split; [reflexivity|]].
  - rewrite Hname.
    destruct (before_first_cut comma raw) as (rest & Hraw & Hin & Hrest).
    destruct (strip_cut (before_first comma raw)) as (l & r & Hs & Hl & Hr & Hh & Ht).
    exists l, r, rest. rewrite <- Hs. repeat split; assumption.
  - intros World' gmaps' lower' v q v' Hq.
    apply geocode_address_fallback_some in Hq as (la & ln & fa & _ & ->).
    simpl. now rewrite split_first, Hname.
Qed.

Lemma fallback_name_from_input_witness :
  (exists p,
      Resolver.geocode_address_fallback Fake.gmaps Fake.lower
        (lit "123 Fake St, Washington DC") 0%nat = (Some p, 1%nat) /\
      Resolver.name p = lit "123 Fake St" /\
      Resolver.address p = lit "123 Fake St, Washington, DC 20001") /\
  (exists p,
      Resolver.geocode_address_fallback Fake.gmaps Fake.lower
        (lit "  123 Fake St , Washington DC") 0%nat = (Some p, 1%nat) /\
      Resolver.name p = lit "123 Fake St").
Proof.
  split.
  - eexists. split; [reflexivity|]. split; [|reflexivity].
    destruct (fallback_name_from_input Fake.gmaps Fake.lower
                (lit "123 Fake St, Washington DC") 0%nat _ 1%nat eq_refl)
      as (Hname & _).
    rewrite Hname. reflexivity.
  - eexists. split; [reflexivity|].
    destruct (fallback_name_from_input Fake.gmaps Fake.lower
                (lit "  123 Fake St , Washington DC") 0%nat _ 1%nat eq_refl)
      as (Hname & _).
    rewrite Hname. reflexivity.
Defined.

(** ** The loop over the raw addresses *)

Lemma place_of_number first ps :
  map Pipeline.place_of (Pipeline.number first ps) = ps.
Proof.
  revert first. induction ps as [|[n a la ln v] ps IH]; intros first; simpl;
    [|rewrite IH]; reflexivity.
Qed.

Lemma number_length first ps : length (Pipeline.number first ps) = length ps.
Proof.
  revert first. induction ps as [|p ps IH]; intros first; simpl; [|rewrite IH]; reflexivity.
Qed.

Lemma number_ids first ps :
  map Pipeline.id (Pipeline.number first ps) = Pipeline.ids_from first (length ps).
Proof.
  revert first. induction ps as [|p ps IH]; intros first; simpl; [|rewrite IH]; reflexivity.
Qed.

Lemma ids_from_bounds first count i :
  In i (Pipeline.ids_from first count) <-> first <= i < first + Z.of_nat count.
Proof.
  revert first. induction count as [|n IH]; intros first; simpl.
  - lia.
  - rewrite IH. lia.
Qed.

Lemma ids_from_nth first count k :
  (k < count)%nat ->
  nth_error (Pipeline.ids_from first count) k = Some (first + Z.of_nat k).
Proof.
  revert first k. induction count as [|n IH]; intros first [|k] Hk; simpl; try lia.
  - f_equal. lia.
  - rewrite IH by lia. f_equal. lia.
Qed.

Lemma ids_from_increasing first count :
  StronglySorted Z.lt (Pipeline.ids_from first count).
Proof.
  revert first. induction count as [|n IH]; intros first; simpl; constructor.
  - apply IH.
  - apply Forall_forall. intros i Hi. apply ids_from_bounds in Hi. lia.
Qed.

Lemma ids_from_NoDup first count : NoDup (Pipeline.ids_from first count).
Proof.
  revert first. induction count as [|n IH]; intros first; simpl; constructor.
  - intros Hi. apply ids_from_bounds in Hi. lia.
  - apply IH.
Qed.

Lemma resolve_all_lines {World} (gmaps : Api.Client World) lower raws w :
  map fst (fst (Pipeline.resolve_all gmaps lower raws w)) = raws.
Proof.
  revert w. induction raws as [|raw raws IH]; intros w; simpl; [reflexivity|].
  destruct (Resolver.geocode_address gmaps lower raw w) as [answer w1].
  specialize (IH w1).
  destruct (Pipeline.resolve_all gmaps lower raws w1) as [answers w2].
  simpl in *. now rewrite IH.
Qed.

Lemma resolved_failed_count answers :
  (length (Pipeline.resolved_of answers) + length (Pipeline.failed_of answers)
   = length answers)%nat.
Proof.
  induction answers as [|[raw [place|]] answers IH]; simpl; lia.
Qed.

(** The loop, told by the answers of the tiers: the places found are
    numbered from [next_id] on and appended, the other lines are appended
    to the failures. *)
Lemma process_each_meaning {World} (gmaps : Api.Client World) lower raws r w :
  let '(answers, w1) := Pipeline.resolve_all gmaps lower raws w in
  Pipeline.process_each gmaps lower raws r w =
    ({| Pipeline.addresses :=
          Pipeline.addresses r
          ++ Pipeline.number (Pipeline.next_id r) (Pipeline.resolved_of answers);
        Pipeline.next_id :=
          Pipeline.next_id r + Z.of_nat (length (Pipeline.resolved_of answers));
        Pipeline.successful :=
          (Pipeline.successful r + length (Pipeline.resolved_of answers))%nat;
        Pipeline.failed := Pipeline.failed r ++ Pipeline.failed_of answers |},
     w1).
Proof.
  revert r w. induction raws as [|raw raws IH]; intros r w; simpl.
  - destruct r; simpl. rewrite !app_nil_r, Z.add_0_r, Nat.add_0_r. reflexivity.
  - unfold Pipeline.process_one.
    destruct (Resolver.geocode_address gmaps lower raw w) as [[place|] w1].
    + specialize (IH
        {| Pipeline.addresses :=
             Pipeline.addresses r ++ [Pipeline.with_id place (Pipeline.next_id r)];
           Pipeline.next_id := Pipeline.next_id r + 1;
           Pipeline.successful := S (Pipeline.successful r);
           Pipeline.failed := Pipeline.failed r |} w1).
      destruct (Pipeline.resolve_all gmaps lower raws w1) as [answers w2].
      rewrite IH. simpl. rewrite <- app_assoc. simpl.
      do 2 f_equal; [lia | lia].
    + specialize (IH
        {| Pipeline.addresses := Pipeline.addresses r;
           Pipeline.next_id := Pipeline.next_id r;
           Pipeline.successful := Pipeline.successful r;
           Pipeline.failed := Pipeline.failed r ++ [raw] |} w1).
      destruct (Pipeline.resolve_all gmaps lower raws w1) as [answers w2].
      rewrite IH. simpl. rewrite <- app_assoc. reflexivity.
Qed.

(** C7: the ids the loop assigns.  The records added are the places found,
    in input order, numbered [next_id], [next_id + 1], ... without a gap:
    the ids are strictly increasing, hence unique, the k-th record added
    has the id [next_id + k], and the counter moves by the number of places
    found only, so that a failed line uses up no id. *)
Theorem ids_sequential_in_input_order {World} (gmaps : Api.Client World)
    lower raws r w :
  let r' := fst (Pipeline.process_each gmaps lower raws r w) in
  let answers := fst (Pipeline.resolve_all gmaps lower raws w) in
  let found := Pipeline.resolved_of answers in
  exists news,
    Pipeline.addresses r' = Pipeline.addresses r ++ news /\
    news = Pipeline.number (Pipeline.next_id r) found /\
    map Pipeline.id news = Pipeline.ids_from (Pipeline.next_id r) (length found) /\
    (forall k a, nth_error news k = Some a ->
                 Pipeline.id a = Pipeline.next_id r + Z.of_nat k) /\
    StronglySorted Z.lt (map Pipeline.id news) /\
    NoDup (map Pipeline.id news) /\
    Pipeline.next_id r' = Pipeline.next_id r + Z.of_nat (length found) /\
    (length found + length (Pipeline.failed_of answers) = length raws)%nat /\
    Pipeline.failed r' = Pipeline.failed r ++ Pipeline.failed_of answers.
Proof.
  intros r' answers found. subst r' answers found.
  pose proof (process_each_meaning gmaps lower raws r w) as H.
  pose proof (resolve_all_lines gmaps lower raws w) as Hl.
  destruct (Pipeline.resolve_all gmaps lower raws w) as [answers w1].
  rewrite H. simpl in *.
  exists (Pipeline.number (Pipeline.next_id r) (Pipeline.resolved_of answers)).
  rewrite number_ids.
  repeat split; auto using ids_from_increasing, ids_from_NoDup.
  - intros k a Hk.
    assert (Hid : nth_error (map Pipeline.id
                   (Pipeline.number (Pipeline.next_id r) (Pipeline.resolved_of answers))) k
                  = Some (Pipeline.id a)) by (rewrite nth_error_map, Hk; reflexivity).
    rewrite number_ids in Hid.
    rewrite ids_from_nth in Hid; [congruence|].
    rewrite <- (number_length (Pipeline.next_id r)).
    apply nth_error_Some. congruence.
  - rewrite resolved_failed_count, <- Hl, length_map. reflexivity.
Qed.

(** ** The whole call *)

(** A call with an input of at least one address, a key and a client runs
    the loop and writes the results. *)
Lemma process_addresses_runs {World} (connect : str -> option (Api.Client World))
    lower append_mode api_key fs w lines k gmaps :
  Pipeline.input_file fs = Some lines ->
  Pipeline.read_raw_addresses lines <> [] ->
  Pipeline.key_set api_key = Some k ->
  connect k = Some gmaps ->
  Pipeline.process_addresses connect lower append_mode api_key fs w =
    let '(r, w') :=
      Pipeline.process_each gmaps lower (Pipeline.read_raw_addresses lines)
        (Pipeline.start append_mode fs) w in
    (Pipeline.Completed r, Pipeline.write_results r fs, w').
Proof.
  intros Hin Hraw Hkey Hc. unfold Pipeline.process_addresses.
  rewrite Hin. destruct (Pipeline.read_raw_addresses lines) as [|raw raws]; [congruence|].
  rewrite Hkey, Hc. reflexivity.
Qed.

(** The loop is reached in no other way. *)
Lemma process_addresses_completed {World} (connect : str -> option (Api.Client World))
    lower append_mode api_key fs w r fs' w' :
  Pipeline.process_addresses connect lower append_mode api_key fs w
    = (Pipeline.Completed r, fs', w') ->
  exists lines k gmaps,
    Pipeline.input_file fs = Some lines /\
    Pipeline.read_raw_addresses lines <> [] /\
    Pipeline.key_set api_key = Some k /\
    connect k = Some gmaps /\
    Pipeline.process_each gmaps lower (Pipeline.read_raw_addresses lines)
      (Pipeline.start append_mode fs) w = (r, w') /\
    fs' = Pipeline.write_results r fs.
Proof.
  unfold Pipeline.process_addresses. intros H.
  destruct (Pipeline.input_file fs) as [lines|]; [|discriminate].
  destruct (Pipeline.read_raw_addresses lines) as [|raw raws] eqn:Eraw; [discriminate|].
  destruct (Pipeline.key_set api_key) as [k|]; [|discriminate].
  destruct (connect k) as [gmaps|] eqn:Ec; [|discriminate].
  destruct (Pipeline.process_each gmaps lower (raw :: raws)
              (Pipeline.start append_mode fs) w) as [r1 w1] eqn:Ep.
  injection H as <- <- <-.
  exists lines, k, gmaps. rewrite Eraw. repeat split; auto. discriminate.
Qed.

Lemma start_counts append_mode fs :
  Pipeline.successful (Pipeline.start append_mode fs) = 0%nat /\
  Pipeline.failed (Pipeline.start append_mode fs) = [].
Proof.
  unfold Pipeline.start.
  destruct (if negb append_mode then _ else _) as [addresses next_id].
  split; reflexivity.
Qed.

(** C8: every line of a run is in exactly one of the two collections.  The
    lines read are paired with the answers of the tiers; the run's new
    records are the answered lines and its failed entries are the
    unanswered ones, both in input order, so the number of records the run
    produced and the number of its failed entries add up to the number of
    input lines. *)
Theorem every_line_resolved_or_failed {World}
    (connect : str -> option (Api.Client World))
    lower append_mode api_key fs w r fs' w' :
  Pipeline.process_addresses connect lower append_mode api_key fs w
    = (Pipeline.Completed r, fs', w') ->
  exists lines k gmaps answers,
    Pipeline.input_file fs = Some lines /\
    Pipeline.key_set api_key = Some k /\
    connect k = Some gmaps /\
    answers = fst (Pipeline.resolve_all gmaps lower
                     (Pipeline.read_raw_addresses lines) w) /\
    map fst answers = Pipeline.read_raw_addresses lines /\
    map Pipeline.place_of (skipn (length (Pipeline.addresses (Pipeline.start append_mode fs)))
                             (Pipeline.addresses r))
      = Pipeline.resolved_of answers /\
    Pipeline.failed r = Pipeline.failed_of answers /\
    Pipeline.successful r = length (Pipeline.resolved_of answers) /\
    (length (Pipeline.addresses r)
     = length (Pipeline.addresses (Pipeline.start append_mode fs))
       + Pipeline.successful r)%nat /\
    (Pipeline.successful r + length (Pipeline.failed r)
     = length (Pipeline.read_raw_addresses lines))%nat.
Proof.
  intros H.
  apply process_addresses_completed in H
    as (lines & k & gmaps & Hin & Hraw & Hkey & Hc & Hp & ->).
  pose proof (process_each_meaning gmaps lower (Pipeline.read_raw_addresses lines)
                (Pipeline.start append_mode fs) w) as Hm.
  pose proof (resolve_all_lines gmaps lower (Pipeline.read_raw_addresses lines) w) as Hl.
  destruct (start_counts append_mode fs) as (Hs0 & Hf0).
  destruct (Pipeline.resolve_all gmaps lower (Pipeline.read_raw_addresses lines) w)
    as [answers w1] eqn:Er.
  rewrite Hp in Hm. injection Hm as -> _. simpl in *.
  exists lines, k, gmaps, answers.
  rewrite Er, Hs0, Hf0. simpl.
  rewrite skipn_app, skipn_all, Nat.sub_diag, length_app, number_length. simpl.
  repeat split; auto.
  - apply place_of_number.
  - rewrite resolved_failed_count, <- Hl, length_map. reflexivity.
Qed.

Lemma every_line_resolved_or_failed_witness :
  let out :=
    Pipeline.process_addresses Fake.connect Fake.lower true Fake.api_key
      (Fake.files ["Smithsonian"; "# a comment"; ""; "  Nowhere ";
                   " 123 Fake St, Washington DC"]
         (Some [Fake.old_record]) None) 0%nat in
  let r := Pipeline.run_of (fst (fst out)) in
  fst (fst out) = Pipeline.Completed r /\
  Pipeline.successful r = 2%nat /\
  Pipeline.failed r = [lit "Nowhere"] /\
  (Pipeline.successful r + length (Pipeline.failed r) = 3)%nat.
Proof.
  intros out r.
  destruct (every_line_resolved_or_failed Fake.connect Fake.lower true Fake.api_key
              (Fake.files ["Smithsonian"; "# a comment"; ""; "  Nowhere ";
                           " 123 Fake St, Washington DC"]
                 (Some [Fake.old_record]) None) 0%nat
              r (snd (fst out)) (snd out) eq_refl)
    as (lines & k & gmaps & answers & Hin & _ & _ & _ & _ & _ & _ & _ & _ & Hcount).
  injection Hin as <-.
  split; [reflexivity|]. split; [reflexivity|]. split; [reflexivity|exact Hcount].
Defined.

(** ** The existing dataset *)

Lemma parse_row_inverse row a :
  Pipeline.parse_row row = Some a -> row = Pipeline.row_of_address a.
Proof.
  unfold Pipeline.parse_row. destruct row as [[i|] [n|] [ad|] [la|] [ln|] [v|]]; simpl;
    try discriminate.
  now intros [= <-].
Qed.

Lemma max_id_of_app records a :
  Pipeline.max_id_of (records ++ [a])
  = Z.max (Pipeline.max_id_of records) (Pipeline.id a).
Proof.
  unfold Pipeline.max_id_of. induction records as [|b records IH]; simpl; [lia|].
  rewrite IH. lia.
Qed.

Lemma max_id_of_bound records :
  0 <= Pipeline.max_id_of records /\
  Forall (fun a => Pipeline.id a <= Pipeline.max_id_of records) records.
Proof.
  unfold Pipeline.max_id_of. induction records as [|b records (IH0 & IH)]; simpl.
  - split; [lia|constructor].
  - split; [lia|]. constructor; [lia|].
    eapply Forall_impl; [|exact IH]. simpl. intros a Ha. lia.
Qed.

Lemma fold_max_reached (l : list Z) :
  fold_right Z.max 0 l = 0 \/ In (fold_right Z.max 0 l) l.
Proof.
  induction l as [|x l [IH|IH]]; simpl; [now left| |].
  - rewrite IH. destruct (Z.max_spec x 0) as [[? ->]|[? ->]]; auto.
  - destruct (Z.max_spec x (fold_right Z.max 0 l)) as [[? ->]|[? ->]]; auto.
Qed.

(** The largest id of a dataset that has a non-negative id. *)
Lemma max_id_of_reached records :
  Exists (fun a => 0 <= Pipeline.id a) records ->
  Exists (fun a => Pipeline.id a = Pipeline.max_id_of records) records.
Proof.
  intros H. apply Exists_exists in H as (a & Ha & Hpos).
  apply Exists_exists.
  destruct (max_id_of_bound records) as (_ & Hall).
  rewrite Forall_forall in Hall. specialize (Hall a Ha).
  destruct (fold_max_reached (map Pipeline.id records)) as [E|E].
  - exists a. split; [exact Ha|]. unfold Pipeline.max_id_of in *. lia.
  - apply in_map_iff in E as (b & Hb & Hin). now exists b.
Qed.

(** The records read are the rows up to the first one that raises, and the
    running maximum is the largest of 0 and their ids. *)
Lemma read_rows_meaning rows acc m :
  m = Pipeline.max_id_of acc ->
  exists read rest,
    Pipeline.read_rows rows acc m
      = (acc ++ read, Pipeline.max_id_of (acc ++ read)) /\
    rows = map Pipeline.row_of_address read ++ rest /\
    (rest = [] \/ exists row rest', rest = row :: rest' /\ Pipeline.parse_row row = None).
Proof.
  revert acc m. induction rows as [|row rows IH]; intros acc m Hm; simpl.
  - exists [], []. rewrite app_nil_r. subst m. auto.
  - destruct (Pipeline.parse_row row) as [a|] eqn:E.
    + destruct (IH (acc ++ [a]) (Z.max m (Pipeline.id a))) as (read & rest & Hr & Hrows & Hrest).
      { now rewrite max_id_of_app, Hm. }
      exists (a :: read), rest. rewrite <- app_assoc in Hr. simpl in *.
      split; [exact Hr|]. split; [|exact Hrest].
      now rewrite (parse_row_inverse _ _ E), Hrows.
    + exists [], (row :: rows). rewrite app_nil_r. subst m.
      split; [reflexivity|]. split; [reflexivity|]. right. now exists row, rows.
Qed.

Lemma read_existing_addresses_meaning csv :
  let existing := fst (Pipeline.read_existing_addresses csv) in
  snd (Pipeline.read_existing_addresses csv) = Pipeline.max_id_of existing /\
  (csv = None -> existing = []) /\
  (forall rows, csv = Some rows ->
     exists rest,
       rows = map Pipeline.row_of_address existing ++ rest /\
       (rest = [] \/
        exists row rest', rest = row :: rest' /\ Pipeline.parse_row row = None)).
Proof.
  destruct csv as [rows|]; simpl.
  - destruct (read_rows_meaning rows [] 0 eq_refl) as (read & rest & Hr & Hrows & Hrest).
    rewrite Hr. simpl. split; [reflexivity|]. split; [discriminate|].
    intros rows' [= <-]. now exists rest.
  - split; [reflexivity|]. split; [reflexivity|discriminate].
Qed.

Lemma parse_row_of_address a :
  Pipeline.parse_row (Pipeline.row_of_address a) = Some a.
Proof. destruct a; reflexivity. Qed.

Lemma read_rows_good good tail acc :
  Pipeline.read_rows (map Pipeline.row_of_address good ++ tail) acc
    (Pipeline.max_id_of acc)
  = Pipeline.read_rows tail (acc ++ good) (Pipeline.max_id_of (acc ++ good)).
Proof.
  revert acc. induction good as [|a good IH]; intros acc.
  - simpl. now rewrite app_nil_r.
  - cbn [map app Pipeline.read_rows].
    rewrite parse_row_of_address, <- max_id_of_app, IH, <- app_assoc. reflexivity.
Qed.

Lemma read_existing_addresses_prefix good bad rest :
  Pipeline.parse_row bad = None ->
  Pipeline.read_existing_addresses
    (Some (map Pipeline.row_of_address good ++ bad :: rest))
  = (good, Pipeline.max_id_of good).
Proof.
  intros Hbad. unfold Pipeline.read_existing_addresses.
  change 0 with (Pipeline.max_id_of []) at 1.
  rewrite read_rows_good. cbn [app Pipeline.read_rows]. now rewrite Hbad.
Qed.

(** The loader finds the records the dataset file holds. *)
Lemma read_existing_addresses_loaded csv existing :
  Pipeline.loaded_from csv existing ->
  Pipeline.read_existing_addresses csv = (existing, Pipeline.max_id_of existing).
Proof.
  destruct csv as [rows|]; simpl.
  - intros (rest & -> & Hrest).
    change 0 with (Pipeline.max_id_of []) at 1.
    rewrite read_rows_good. cbn [app].
    destruct rest as [|bad rest]; cbn [Pipeline.read_rows]; [reflexivity|].
    now rewrite Hrest.
  - intros ->. reflexivity.
Qed.

(** ** The files a completed run leaves *)

Lemma write_results_files r fs :
  Pipeline.input_file (Pipeline.write_results r fs) = Pipeline.input_file fs /\
  Pipeline.csv_file (Pipeline.write_results r fs)
    = match Pipeline.addresses r with
      | [] => Pipeline.csv_file fs
      | _ :: _ => Some (map Pipeline.row_of_address (Pipeline.addresses r))
      end /\
  Pipeline.failed_file (Pipeline.write_results r fs)
    = match Pipeline.failed r with
      | [] => None
      | _ :: _ => Some (Pipeline.failed r)
      end.
Proof.
  unfold Pipeline.write_results, Pipeline.write_addresses_csv.
  destruct (Pipeline.addresses r), (Pipeline.failed r), fs as [i c [f|]]; simpl; auto.
Qed.

(** ** Append mode *)

(** C1, as the code has it: in append mode the records of the dataset
    file (those of its rows, up to the first row that does not convert)
    stay in front, with their ids, the records of the run follow them, and
    the new ids run from the largest id of these records (0 when there is
    none) plus 1, above every one of their ids.  The merged dataset has
    these records and the run's successes, and is what the dataset file
    then holds. *)
Theorem append_numbers_from_max_plus_1 {World}
    (connect : str -> option (Api.Client World))
    lower api_key fs w lines k gmaps existing :
  Pipeline.input_file fs = Some lines ->
  Pipeline.read_raw_addresses lines <> [] ->
  Pipeline.key_set api_key = Some k ->
  connect k = Some gmaps ->
  Pipeline.loaded_from (Pipeline.csv_file fs) existing ->
  let N := Pipeline.max_id_of existing in
  exists r w' news,
    Pipeline.process_addresses connect lower true api_key fs w
      = (Pipeline.Completed r, Pipeline.write_results r fs, w') /\
    Pipeline.addresses r = existing ++ news /\
    length news = Pipeline.successful r /\
    length (Pipeline.addresses r) = (length existing + Pipeline.successful r)%nat /\
    map Pipeline.place_of news
      = Pipeline.resolved_of
          (fst (Pipeline.resolve_all gmaps lower (Pipeline.read_raw_addresses lines) w)) /\
    map Pipeline.id news = Pipeline.ids_from (N + 1) (Pipeline.successful r) /\
    Forall (fun a => Pipeline.id a <= N) existing /\
    Forall (fun b => N < Pipeline.id b) news /\
    (Exists (fun a => 0 <= Pipeline.id a) existing ->
     Exists (fun a => Pipeline.id a = N) existing) /\
    (Pipeline.addresses r <> [] ->
     Pipeline.csv_file (Pipeline.write_results r fs)
       = Some (map Pipeline.row_of_address existing
               ++ map Pipeline.row_of_address news)).
Proof.
  intros Hin Hraw Hkey Hc Hloaded N.
  rewrite (process_addresses_runs connect lower true api_key fs w lines k gmaps Hin Hraw Hkey Hc).
  pose proof (process_each_meaning gmaps lower (Pipeline.read_raw_addresses lines)
                (Pipeline.start true fs) w) as Hm.
  destruct (Pipeline.resolve_all gmaps lower (Pipeline.read_raw_addresses lines) w)
    as [answers w1].
  rewrite Hm. clear Hm.
  assert (Hstart : Pipeline.start true fs =
                   {| Pipeline.addresses := existing; Pipeline.next_id := N + 1;
                      Pipeline.successful := 0; Pipeline.failed := [] |}).
  { unfold Pipeline.start. cbn [negb].
    now rewrite (read_existing_addresses_loaded _ _ Hloaded). }
  rewrite Hstart. simpl.
  eexists. exists w1, (Pipeline.number (N + 1) (Pipeline.resolved_of answers)).
  split; [reflexivity|]. simpl.
  rewrite number_length, length_app, number_length, number_ids.
  repeat split; auto.
  - apply place_of_number.
  - apply max_id_of_bound.
  - apply Forall_forall. intros b Hb.
    apply (in_map Pipeline.id) in Hb. rewrite number_ids in Hb.
    apply ids_from_bounds in Hb. lia.
  - apply max_id_of_reached.
  - intros Hne. destruct (write_results_files
      {| Pipeline.addresses := existing ++ Pipeline.number (N + 1) (Pipeline.resolved_of answers);
         Pipeline.next_id := N + 1 + Z.of_nat (length (Pipeline.resolved_of answers));
         Pipeline.successful := length (Pipeline.resolved_of answers);
         Pipeline.failed := Pipeline.failed_of answers |} fs) as (_ & Hcsv & _).
    rewrite Hcsv, <- map_app. simpl in *.
    destruct (existing ++ Pipeline.number (N + 1) (Pipeline.resolved_of answers));
      [congruence|reflexivity].
Qed.

Lemma append_numbers_from_max_plus_1_witness :
  let ebbitt := {| Pipeline.id := 5; Pipeline.name := lit "Old Ebbitt Grill";
                   Pipeline.address := lit "675 15th St NW, Washington, DC 20005";
                   Pipeline.lat := 38.898%float; Pipeline.lng := (-77.0336)%float;
                   Pipeline.visible := true |} in
  let tombs := {| Pipeline.id := 3; Pipeline.name := lit "The Tombs";
                  Pipeline.address := lit "1226 36th St NW";
                  Pipeline.lat := 38.9076%float; Pipeline.lng := (-77.0703)%float;
                  Pipeline.visible := false |} in
  let bad := {| Pipeline.row_id := Some 40;
                Pipeline.row_name := Some (lit "Bad latitude");
                Pipeline.row_address := Some (lit "1 K St");
                Pipeline.row_lat := None;
                Pipeline.row_lng := Some (-77.0)%float;
                Pipeline.row_visible := Some true |} in
  let fs := Fake.files ["Smithsonian"; "Nowhere"; "123 Fake St"]
              (Some [Pipeline.row_of_address ebbitt; Pipeline.row_of_address tombs;
                     bad; Pipeline.row_of_address ebbitt]) None in
  exists r w' news,
    Pipeline.process_addresses Fake.connect Fake.lower true Fake.api_key fs 0%nat
      = (Pipeline.Completed r, Pipeline.write_results r fs, w') /\
    Pipeline.addresses r = [ebbitt; tombs] ++ news /\
    map Pipeline.id news = [6; 7].
Proof.
  intros ebbitt tombs bad fs.
  destruct (append_numbers_from_max_plus_1 Fake.connect Fake.lower Fake.api_key fs 0%nat
              (map lit ["Smithsonian"; "Nowhere"; "123 Fake St"])
              (lit "AIzaKey") Fake.gmaps [ebbitt; tombs] eq_refl
              ltac:(vm_compute; discriminate) eq_refl eq_refl
              (ex_intro _ [bad; Pipeline.row_of_address ebbitt] (conj eq_refl eq_refl)))
    as (r & w' & news & Hrun & Hadd & Hlen & _ & _ & Hids & _).
  exists r, w', news. split; [exact Hrun|]. split; [exact Hadd|].
  vm_compute in Hrun. injection Hrun as Hr _ _. subst r.
  vm_compute in Hids. exact Hids.
Defined.

(** C1 as stated fails: with a dataset whose largest id is 5 and one
    resolved entry, the new record gets the id 6, not 5 + 2. *)
Lemma append_first_new_id_is_not_max_plus_2 :
  let fs := Fake.files ["Smithsonian"] (Some [Fake.old_record]) None in
  let out := Pipeline.process_addresses Fake.connect Fake.lower true Fake.api_key
               fs 0%nat in
  let existing := fst (Pipeline.read_existing_addresses (Pipeline.csv_file fs)) in
  let r := Pipeline.run_of (fst (fst out)) in
  fst (fst out) = Pipeline.Completed r /\
  map Pipeline.id existing = [5] /\
  Pipeline.max_id_of existing = 5 /\
  map Pipeline.id (Pipeline.addresses r) = [5; 6] /\
  map Pipeline.id (skipn (length existing) (Pipeline.addresses r))
    <> Pipeline.ids_from (Pipeline.max_id_of existing + 2) 1.
Proof.
  vm_compute. repeat split; discriminate.
Qed.

(** ** The merger invariant *)

Lemma fold_max_last (x : Z) (l : list Z) (y : Z) :
  fold_right Z.max x (l ++ [y]) = Z.max (fold_right Z.max x l) y.
Proof.
  induction l as [|z l IH]; simpl; [lia|]. rewrite IH. lia.
Qed.

(** One turn of the loop keeps the invariant. *)
Lemma merger_invariant_process_one {World} (gmaps : Api.Client World)
    lower raw r w :
  Pipeline.merger_invariant (Pipeline.addresses r) (Pipeline.next_id r) ->
  let r' := fst (Pipeline.process_one gmaps lower raw r w) in
  Pipeline.merger_invariant (Pipeline.addresses r') (Pipeline.next_id r').
Proof.
  unfold Pipeline.process_one.
  destruct (Resolver.geocode_address gmaps lower raw w) as [[place|] w1]; simpl; auto.
  unfold Pipeline.merger_invariant.
  destruct (Pipeline.addresses r) as [|a rest]; simpl.
  - intros ->. reflexivity.
  - intros ->. rewrite map_app. simpl. rewrite fold_max_last. simpl. lia.
Qed.

(** Append mode enters the loop with the invariant, when the dataset
    read is empty or has an id that is not negative. *)
Lemma merger_invariant_append_start fs :
  let existing := fst (Pipeline.read_existing_addresses (Pipeline.csv_file fs)) in
  (existing = [] \/ Exists (fun a => 0 <= Pipeline.id a) existing) ->
  Pipeline.merger_invariant (Pipeline.addresses (Pipeline.start true fs))
    (Pipeline.next_id (Pipeline.start true fs)).
Proof.
  intros existing H.
  destruct (read_existing_addresses_meaning (Pipeline.csv_file fs)) as (Hmax & _).
  fold existing in Hmax. unfold Pipeline.start. simpl. subst existing.
  destruct (Pipeline.read_existing_addresses (Pipeline.csv_file fs)) as [ex mx].
  simpl in *. subst mx. unfold Pipeline.merger_invariant.
  destruct ex as [|a rest]; [reflexivity|].
  destruct H as [H|H]; [discriminate|].
  f_equal. unfold Pipeline.max_id_of. simpl.
  apply Exists_exists in H as (b & Hb & Hpos).
  assert (Hge : forall x l, x <= fold_right Z.max x l).
  { intros x l. induction l; simpl; lia. }
  assert (Hin : forall x l c, In c l -> c <= fold_right Z.max x l).
  { intros x l c. induction l as [|d l IH]; simpl; [tauto|].
    intros [->|Hc]; [lia|]. specialize (IH Hc). lia. }
  assert (Hsame : forall x l,
             Z.max x (fold_right Z.max 0 l) = Z.max 0 (fold_right Z.max x l)).
  { intros x l. induction l as [|d l IH]; simpl; lia. }
  rewrite Hsame. destruct Hb as [<-|Hb].
  - specialize (Hge (Pipeline.id a) (map Pipeline.id rest)). lia.
  - apply (in_map Pipeline.id) in Hb.
    specialize (Hin (Pipeline.id a) _ _ Hb). lia.
Qed.

(** C2 on the code: overwrite mode enters the loop with an empty dataset
    and the next id 2, where the invariant asks for 1; the first record of
    an overwrite run is numbered 2. *)
Theorem overwrite_first_id_is_2 :
  (forall fs,
      Pipeline.addresses (Pipeline.start false fs) = [] /\
      Pipeline.next_id (Pipeline.start false fs) = 2 /\
      ~ Pipeline.merger_invariant (Pipeline.addresses (Pipeline.start false fs))
          (Pipeline.next_id (Pipeline.start false fs))) /\
  (let out := Pipeline.process_addresses Fake.connect Fake.lower false Fake.api_key
                (Fake.files ["Smithsonian"] None None) 0%nat in
   let r := Pipeline.run_of (fst (fst out)) in
   fst (fst out) = Pipeline.Completed r /\
   map Pipeline.id (Pipeline.addresses r) = [2]) /\
  (let out := Pipeline.process_addresses Fake.connect Fake.lower true Fake.api_key
                (Fake.files ["Smithsonian"] None None) 0%nat in
   let r := Pipeline.run_of (fst (fst out)) in
   fst (fst out) = Pipeline.Completed r /\
   map Pipeline.id (Pipeline.addresses r) = [1]).
Proof.
  split; [|split; vm_compute; split; reflexivity].
  intros fs. unfold Pipeline.start. simpl.
  repeat split. unfold Pipeline.merger_invariant. lia.
Qed.

(** ** Overwrite mode *)

(** C3, as the code has it: an overwrite run never reads the dataset file.
    Its records are the places resolved in this run, in input order, and
    they are the same whatever the dataset file held.  When there is at
    least one, the dataset file is replaced by exactly these records; when
    there is none, the dataset file is not written. *)
Theorem overwrite_ignores_existing_dataset {World}
    (connect : str -> option (Api.Client World))
    lower api_key fs w lines k gmaps :
  Pipeline.input_file fs = Some lines ->
  Pipeline.read_raw_addresses lines <> [] ->
  Pipeline.key_set api_key = Some k ->
  connect k = Some gmaps ->
  let answers :=
    fst (Pipeline.resolve_all gmaps lower (Pipeline.read_raw_addresses lines) w) in
  exists r w',
    Pipeline.process_addresses connect lower false api_key fs w
      = (Pipeline.Completed r, Pipeline.write_results r fs, w') /\
    map Pipeline.place_of (Pipeline.addresses r) = Pipeline.resolved_of answers /\
    (forall csv,
        let fs2 := {| Pipeline.input_file := Pipeline.input_file fs;
                      Pipeline.csv_file := csv;
                      Pipeline.failed_file := Pipeline.failed_file fs |} in
        Pipeline.process_addresses connect lower false api_key fs2 w
          = (Pipeline.Completed r, Pipeline.write_results r fs2, w')) /\
    (Pipeline.addresses r <> [] ->
     Pipeline.csv_file (Pipeline.write_results r fs)
       = Some (map Pipeline.row_of_address (Pipeline.addresses r))) /\
    (Pipeline.addresses r = [] ->
     Pipeline.csv_file (Pipeline.write_results r fs) = Pipeline.csv_file fs).
Proof.
  intros Hin Hraw Hkey Hc answers.
  rewrite (process_addresses_runs connect lower false api_key fs w lines k gmaps Hin Hraw Hkey Hc).
  pose proof (process_each_meaning gmaps lower (Pipeline.read_raw_addresses lines)
                (Pipeline.start false fs) w) as Hm.
  subst answers.
  destruct (Pipeline.resolve_all gmaps lower (Pipeline.read_raw_addresses lines) w)
    as [answers w1] eqn:Er.
  rewrite Hm. clear Hm. simpl.
  eexists. exists w1. split; [reflexivity|]. simpl.
  split; [apply place_of_number|]. split; [|split].
  - intros csv.
    set (fs2 := {| Pipeline.input_file := Pipeline.input_file fs;
                   Pipeline.csv_file := csv;
                   Pipeline.failed_file := Pipeline.failed_file fs |}).
    rewrite (process_addresses_runs connect lower false api_key fs2 w lines k gmaps
               Hin Hraw Hkey Hc).
    pose proof (process_each_meaning gmaps lower (Pipeline.read_raw_addresses lines)
                  (Pipeline.start false fs2) w) as Hm.
    rewrite Er in Hm. rewrite Hm. reflexivity.
  - intros Hne.
    match goal with
    | |- Pipeline.csv_file (Pipeline.write_results ?r fs) = _ =>
        destruct (write_results_files r fs) as (_ & Hcsv & _); rewrite Hcsv; simpl in *
    end.
    destruct (Pipeline.number 2 (Pipeline.resolved_of answers)); [congruence|reflexivity].
  - intros He.
    match goal with
    | |- Pipeline.csv_file (Pipeline.write_results ?r fs) = _ =>
        destruct (write_results_files r fs) as (_ & Hcsv & _); rewrite Hcsv; simpl in *
    end.
    now rewrite He.
Qed.

Lemma overwrite_ignores_existing_dataset_witness :
  let fs := Fake.files ["Smithsonian"; "Nowhere"] (Some [Fake.old_record]) None in
  exists r w',
    Pipeline.process_addresses Fake.connect Fake.lower false Fake.api_key fs 0%nat
      = (Pipeline.Completed r, Pipeline.write_results r fs, w') /\
    map Resolver.name (map Pipeline.place_of (Pipeline.addresses r))
      = [lit "Smithsonian Castle"] /\
    Pipeline.csv_file (Pipeline.write_results r fs)
      = Some (map Pipeline.row_of_address (Pipeline.addresses r)).
Proof.
  intros fs.
  destruct (overwrite_ignores_existing_dataset Fake.connect Fake.lower Fake.api_key
              fs 0%nat (map lit ["Smithsonian"; "Nowhere"]) (lit "AIzaKey") Fake.gmaps
              eq_refl ltac:(vm_compute; discriminate) eq_refl eq_refl)
    as (r & w' & Hrun & Hplaces & _ & Hcsv & _).
  exists r, w'. split; [exact Hrun|]. split.
  - rewrite Hplaces. reflexivity.
  - apply Hcsv. intros He. rewrite He in Hplaces. vm_compute in Hplaces. discriminate.
Defined.

(** C3 as stated fails: an overwrite run that resolves nothing leaves the
    dataset file of an earlier run in place, so what the dataset holds
    after the run is not the run's (empty) list of records, and depends on
    what was on disk. *)
Lemma overwrite_keeps_dataset_when_nothing_resolves :
  let run csv :=
    Pipeline.process_addresses Fake.connect Fake.lower false Fake.api_key
      (Fake.files ["Nowhere"] csv None) 0%nat in
  let r := Pipeline.run_of (fst (fst (run (Some [Fake.old_record])))) in
  fst (fst (run (Some [Fake.old_record]))) = Pipeline.Completed r /\
  Pipeline.addresses r = [] /\
  Pipeline.csv_file (snd (fst (run (Some [Fake.old_record]))))
    = Some [Fake.old_record] /\
  Pipeline.csv_file (snd (fst (run (Some [Fake.old_record]))))
    <> Some (map Pipeline.row_of_address (Pipeline.addresses r)) /\
  Pipeline.csv_file (snd (fst (run (Some [Fake.old_record]))))
    <> Pipeline.csv_file (snd (fst (run None))).
Proof.
  vm_compute. repeat split; discriminate.
Qed.

(** ** The failure file *)

(** C9, as the code has it: a run that gets to its loop (the input has an
    address, the key is set, the client is made) leaves a failure file
    that tells of this run alone: the lines nothing was found for, in
    input order, when there is one, and no failure file when there is
    none, whatever failure file was there before.  A run that stops before
    the loop (no input file, no address in it, no key, no client) leaves
    the failure file, and every other file, as it was. *)
Theorem failure_file_reflects_completed_run {World}
    (connect : str -> option (Api.Client World))
    lower append_mode api_key fs w :
  let out := Pipeline.process_addresses connect lower append_mode api_key fs w in
  (forall lines k gmaps,
      Pipeline.input_file fs = Some lines ->
      Pipeline.read_raw_addresses lines <> [] ->
      Pipeline.key_set api_key = Some k ->
      connect k = Some gmaps ->
      let answers :=
        fst (Pipeline.resolve_all gmaps lower (Pipeline.read_raw_addresses lines) w) in
      exists r fs' w',
        out = (Pipeline.Completed r, fs', w') /\
        Pipeline.failed r = Pipeline.failed_of answers /\
        (Pipeline.failed r <> [] ->
         Pipeline.failed_file fs' = Some (Pipeline.failed r)) /\
        (Pipeline.failed r = [] -> Pipeline.failed_file fs' = None)) /\
  ((forall r, fst (fst out) <> Pipeline.Completed r) <->
   Pipeline.input_file fs = None \/
   exists lines,
     Pipeline.input_file fs = Some lines /\
     (Pipeline.read_raw_addresses lines = [] \/
      Pipeline.key_set api_key = None \/
      exists k, Pipeline.key_set api_key = Some k /\ connect k = None)) /\
  ((forall r, fst (fst out) <> Pipeline.Completed r) ->
   Pipeline.failed_file (snd (fst out)) = Pipeline.failed_file fs /\
   snd (fst out) = fs /\ snd out = w).
Proof.
  intros out. subst out. split; [|split].
  - intros lines k gmaps Hin Hraw Hkey Hc answers.
    rewrite (process_addresses_runs connect lower append_mode api_key fs w lines k gmaps
               Hin Hraw Hkey Hc).
    pose proof (process_each_meaning gmaps lower (Pipeline.read_raw_addresses lines)
                  (Pipeline.start append_mode fs) w) as Hm.
    destruct (start_counts append_mode fs) as (_ & Hf0).
    subst answers.
    destruct (Pipeline.resolve_all gmaps lower (Pipeline.read_raw_addresses lines) w)
      as [answers w1].
    rewrite Hm. clear Hm. rewrite Hf0. simpl.
    eexists. eexists. exists w1. split; [reflexivity|]. simpl.
    split; [reflexivity|].
    match goal with
    | |- context [Pipeline.write_results ?r fs] =>
        destruct (write_results_files r fs) as (_ & _ & Hfailed); rewrite Hfailed; simpl
    end.
    destruct (Pipeline.failed_of answers); split; congruence.
  - unfold Pipeline.process_addresses.
    destruct (Pipeline.input_file fs) as [lines|]; cbn [fst];
      [|split; [now left|discriminate]].
    destruct (Pipeline.read_raw_addresses lines) as [|raw raws] eqn:Eraw; cbn [fst].
    { split; [|discriminate]. intros _. right. exists lines. rewrite Eraw. auto. }
    destruct (Pipeline.key_set api_key) as [k|]; cbn [fst].
    2:{ split; [|discriminate]. intros _. right. exists lines. auto. }
    destruct (connect k) as [gmaps|] eqn:Ec; cbn [fst].
    2:{ split; [|discriminate]. intros _. right. exists lines.
        split; [reflexivity|]. right. right. now exists k. }
    destruct (Pipeline.process_each gmaps lower (raw :: raws)
                (Pipeline.start append_mode fs) w) as [r w1]. cbn [fst].
    split.
    + intros H. now elim (H r).
    + intros [H|(lines' & [= <-] & [H|[H|(k' & [= <-] & H)]])]; try discriminate.
      * rewrite Eraw in H. discriminate.
      * congruence.
  - unfold Pipeline.process_addresses.
    destruct (Pipeline.input_file fs) as [lines|]; cbn [fst snd]; [|auto].
    destruct (Pipeline.read_raw_addresses lines) as [|raw raws]; cbn [fst snd]; [auto|].
    destruct (Pipeline.key_set api_key) as [k|]; cbn [fst snd]; [|auto].
    destruct (connect k) as [gmaps|]; cbn [fst snd]; [|auto].
    destruct (Pipeline.process_each gmaps lower (raw :: raws)
                (Pipeline.start append_mode fs) w) as [r w1]. cbn [fst snd].
    intros H. now elim (H r).
Qed.

Lemma failure_file_reflects_completed_run_witness :
  (exists r fs' w',
      Pipeline.process_addresses Fake.connect Fake.lower false Fake.api_key
        (Fake.files ["Nowhere"; "Smithsonian"; "Elsewhere"] None (Some ["Old failure"]))
        0%nat = (Pipeline.Completed r, fs', w') /\
      Pipeline.failed_file fs' = Some [lit "Nowhere"; lit "Elsewhere"]) /\
  (exists r fs' w',
      Pipeline.process_addresses Fake.connect Fake.lower false Fake.api_key
        (Fake.files ["Smithsonian"] None (Some ["Old failure"]))
        0%nat = (Pipeline.Completed r, fs', w') /\
      Pipeline.failed_file fs' = None) /\
  Pipeline.failed_file
    (snd (fst (Pipeline.process_addresses Fake.connect Fake.lower false None
                 (Fake.files ["Nowhere"] None (Some ["Old failure"])) 0%nat)))
  = Some [lit "Old failure"].
Proof.
  split; [|split].
  - destruct (failure_file_reflects_completed_run Fake.connect Fake.lower false
                Fake.api_key
                (Fake.files ["Nowhere"; "Smithsonian"; "Elsewhere"] None (Some ["Old failure"]))
                0%nat) as (Hloop & _).
    destruct (Hloop (map lit ["Nowhere"; "Smithsonian"; "Elsewhere"])
                (lit "AIzaKey") Fake.gmaps
                eq_refl ltac:(vm_compute; discriminate) eq_refl eq_refl)
      as (r & fs' & w' & Hrun & Hfailed & Hsome & _).
    exists r, fs', w'. split; [exact Hrun|].
    assert (Hf : Pipeline.failed r = [lit "Nowhere"; lit "Elsewhere"])
      by (rewrite Hfailed; reflexivity).
    rewrite Hf in Hsome. apply Hsome. discriminate.
  - destruct (failure_file_reflects_completed_run Fake.connect Fake.lower false
                Fake.api_key
                (Fake.files ["Smithsonian"] None (Some ["Old failure"]))
                0%nat) as (Hloop & _).
    destruct (Hloop (map lit ["Smithsonian"])
                (lit "AIzaKey") Fake.gmaps
                eq_refl ltac:(vm_compute; discriminate) eq_refl eq_refl)
      as (r & fs' & w' & Hrun & Hfailed & _ & Hnone).
    exists r, fs', w'. split; [exact Hrun|].
    apply Hnone. rewrite Hfailed. reflexivity.
  - destruct (failure_file_reflects_completed_run Fake.connect Fake.lower false None
                (Fake.files ["Nowhere"] None (Some ["Old failure"])) 0%nat)
      as (_ & Hstop & Hkeep).
    destruct Hkeep as (Hfile & _).
    { apply Hstop. right. exists (map lit ["Nowhere"]).
      split; [reflexivity|]. right. left. reflexivity. }
    rewrite Hfile. reflexivity.
Defined.

(** C9 as stated fails: a run whose input has no address has no failed
    entry, and the failure file of an earlier run is still there after
    it. *)
Lemma stale_failure_file_survives_empty_input :
  let fs := Fake.files ["# nothing to do"; ""] None (Some ["Old failure"]) in
  let out := Pipeline.process_addresses Fake.connect Fake.lower false Fake.api_key
               fs 0%nat in
  fst (fst out) = Pipeline.NoAddresses /\
  Pipeline.failed_entries (fst (fst out)) = [] /\
  Pipeline.failed_file fs = Some [lit "Old failure"] /\
  Pipeline.failed_file (snd (fst out)) = Some [lit "Old failure"] /\
  Pipeline.failed_file (snd (fst out)) <> None.
Proof.
  vm_compute. repeat split; discriminate.
Qed.

(** ** An input without addresses *)

(** The lines kept are the stripped lines that are neither empty nor a
    comment. *)
Lemma read_raw_addresses_none lines :
  Pipeline.read_raw_addresses lines = [] <->
  Forall (fun line => strip line = [] \/ startswith [hash] (strip line) = true) lines.
Proof.
  induction lines as [|line lines IH].
  - split; [constructor|reflexivity].
  - rewrite Forall_cons_iff, <- IH. cbn [Pipeline.read_raw_addresses].
    destruct (strip line) as [|c rest] eqn:E.
    + intuition.
    + destruct (startswith [hash] (c :: rest)) eqn:Es; cbn [negb].
      * intuition.
      * split; [discriminate|]. intros [[Hl|Hl] _]; discriminate.
Qed.

(** C10: when the input file exists and every line of it is blank or a
    comment, the call returns early: whatever the API key is, set or not,
    and whatever the client library would do with it, the files (dataset
    and failure file among them) and the outside world are left as they
    were. *)
Theorem empty_input_returns_early {World}
    (connect : str -> option (Api.Client World))
    lower append_mode api_key fs w lines :
  Pipeline.input_file fs = Some lines ->
  Forall (fun line => strip line = [] \/ startswith [hash] (strip line) = true) lines ->
  Pipeline.process_addresses connect lower append_mode api_key fs w
    = (Pipeline.NoAddresses, fs, w) /\
  Pipeline.process_addresses connect lower append_mode None fs w
    = (Pipeline.NoAddresses, fs, w).
Proof.
  intros Hin Hnone. apply read_raw_addresses_none in Hnone.
  unfold Pipeline.process_addresses. rewrite Hin, Hnone. split; reflexivity.
Qed.

Lemma empty_input_returns_early_witness :
  let fs := Fake.files ["# bars to add later"; ""; "   "; "  # indented comment"]
              (Some [Fake.old_record]) (Some ["Old failure"]) in
  Pipeline.process_addresses Fake.connect Fake.lower true None fs 7%nat
    = (Pipeline.NoAddresses, fs, 7%nat).
Proof.
  intros fs.
  apply (empty_input_returns_early Fake.connect Fake.lower true None fs 7%nat
           (map lit ["# bars to add later"; ""; "   "; "  # indented comment"])
           eq_refl).
  repeat apply Forall_cons; try apply Forall_nil;
    first [left; reflexivity | right; reflexivity].
Defined.

(** * Further properties of the script *)

(** ** The lines kept from the input *)

Lemma lstrip_fixed s :
  (forall c t, s = c :: t -> isspace c = false) -> lstrip s = s.
Proof.
  destruct s as [|c t]; [reflexivity|]. intros H. simpl.
  now rewrite (H c t eq_refl).
Qed.

Lemma rstrip_fixed s :
  (forall c t, s = t ++ [c] -> isspace c = false) -> rstrip s = s.
Proof.
  intros H. unfold rstrip. rewrite lstrip_fixed; [apply rev_involutive|].
  intros c t E. apply (H c (rev t)).
  rewrite <- (rev_involutive s), E. reflexivity.
Qed.

(** Stripping twice is stripping once. *)
Lemma strip_idempotent s : strip (strip s) = strip s.
Proof.
  destruct (strip_cut s) as (l & r & _ & _ & _ & Hhead & Hlast).
  unfold strip at 1. rewrite (lstrip_fixed (strip s) Hhead).
  apply rstrip_fixed, Hlast.
Qed.

Lemma read_raw_addresses_clean lines :
  Forall Pipeline.clean (Pipeline.read_raw_addresses lines).
Proof.
  induction lines as [|line lines IH]; [constructor|].
  cbn [Pipeline.read_raw_addresses].
  destruct (strip line) as [|c rest] eqn:E; [exact IH|].
  destruct (startswith [hash] (c :: rest)) eqn:Es; cbn [negb]; [exact IH|].
  constructor; [|exact IH].
  split; [discriminate|]. split; [|exact Es].
  rewrite <- E. apply strip_idempotent.
Qed.

Lemma read_raw_addresses_of_clean raws :
  Forall Pipeline.clean raws -> Pipeline.read_raw_addresses raws = raws.
Proof.
  induction 1 as [|raw raws (Hne & Hs & Hc) _ IH]; [reflexivity|].
  cbn [Pipeline.read_raw_addresses]. rewrite Hs.
  destruct raw as [|c rest]; [congruence|].
  rewrite Hc. cbn [negb]. now rewrite IH.
Qed.

(** X1: every address the input yields is stripped, is not empty and does
    not start with '#', and the addresses are the input lines that are so
    once stripped, in order; reading the addresses again as lines gives
    them back. *)
Theorem raw_addresses_are_clean lines :
  Forall (fun raw => raw <> [] /\ strip raw = raw /\ startswith [hash] raw = false)
    (Pipeline.read_raw_addresses lines) /\
  Pipeline.read_raw_addresses lines
    = filter (fun line => match line with
                          | [] => false
                          | _ :: _ => negb (startswith [hash] line)
                          end) (map strip lines) /\
  Pipeline.read_raw_addresses (Pipeline.read_raw_addresses lines)
    = Pipeline.read_raw_addresses lines.
Proof.
  split; [apply read_raw_addresses_clean|]. split.
  - induction lines as [|line lines IH]; [reflexivity|].
    cbn [Pipeline.read_raw_addresses map filter].
    destruct (strip line) as [|c rest]; [exact IH|].
    destruct (negb (startswith [hash] (c :: rest))); [now rewrite IH|exact IH].
  - apply read_raw_addresses_of_clean, read_raw_addresses_clean.
Qed.

Lemma failed_of_lines answers :
  forall raw, In raw (Pipeline.failed_of answers) -> In raw (map fst answers).
Proof.
  induction answers as [|[line [place|]] answers IH]; simpl; intros raw H.
  - exact H.
  - right. now apply IH.
  - destruct H as [->|H]; [now left|right; now apply IH].
Qed.

Lemma every_line_resolved_or_failed_lines {World}
    (connect : str -> option (Api.Client World))
    lower append_mode api_key fs w r fs' w' :
  Pipeline.process_addresses connect lower append_mode api_key fs w
    = (Pipeline.Completed r, fs', w') ->
  exists lines,
    Pipeline.input_file fs = Some lines /\
    incl (Pipeline.failed r) (Pipeline.read_raw_addresses lines).
Proof.
  intros H.
  apply process_addresses_completed in H
    as (lines & k & gmaps & Hin & Hraw & Hkey & Hc & Hp & ->).
  exists lines. split; [exact Hin|].
  pose proof (process_each_meaning gmaps lower (Pipeline.read_raw_addresses lines)
                (Pipeline.start append_mode fs) w) as Hm.
  pose proof (resolve_all_lines gmaps lower (Pipeline.read_raw_addresses lines) w) as Hl.
  destruct (start_counts append_mode fs) as (_ & Hf0).
  destruct (Pipeline.resolve_all gmaps lower (Pipeline.read_raw_addresses lines) w)
    as [answers w1].
  rewrite Hp in Hm. injection Hm as -> _. simpl in *. rewrite Hf0. simpl.
  intros raw Hraw'. rewrite <- Hl. now apply failed_of_lines.
Qed.

(** X2: the failure list of a completed run holds lines of its input, and
    used as the input of a later run it yields exactly these entries. *)
Theorem failed_entries_can_be_fed_back {World}
    (connect : str -> option (Api.Client World))
    lower append_mode api_key fs w r fs' w' :
  Pipeline.process_addresses connect lower append_mode api_key fs w
    = (Pipeline.Completed r, fs', w') ->
  (exists lines,
      Pipeline.input_file fs = Some lines /\
      incl (Pipeline.failed r) (Pipeline.read_raw_addresses lines)) /\
  Pipeline.read_raw_addresses (Pipeline.failed r) = Pipeline.failed r.
Proof.
  intros H.
  destruct (every_line_resolved_or_failed_lines connect lower append_mode api_key
              fs w r fs' w' H) as (lines & Hin & Hincl).
  split; [now exists lines|].
  apply read_raw_addresses_of_clean.
  apply Forall_forall. intros raw Hraw.
  pose proof (read_raw_addresses_clean lines) as Hc.
  rewrite Forall_forall in Hc. apply Hc, Hincl, Hraw.
Qed.

Lemma failed_entries_can_be_fed_back_witness :
  let out :=
    Pipeline.process_addresses Fake.connect Fake.lower false Fake.api_key
      (Fake.files ["  Nowhere "; "Smithsonian"; "# note"; "Elsewhere, MD"] None None)
      0%nat in
  let r := Pipeline.run_of (fst (fst out)) in
  Pipeline.failed r = [lit "Nowhere"; lit "Elsewhere, MD"] /\
  Pipeline.read_raw_addresses (Pipeline.failed r) = Pipeline.failed r.
Proof.
  intros out r. split; [reflexivity|].
  apply (failed_entries_can_be_fed_back Fake.connect Fake.lower false Fake.api_key
           (Fake.files ["  Nowhere "; "Smithsonian"; "# note"; "Elsewhere, MD"] None None)
           0%nat r (snd (fst out)) (snd out) eq_refl).
Defined.

(** ** The two tiers together *)

Lemma find_place_by_name_visible {World} (gmaps : Api.Client World) lower raw w p w' :
  Resolver.find_place_by_name gmaps lower raw w = (Some p, w') ->
  Resolver.visible p = true.
Proof.
  unfold Resolver.find_place_by_name, Resolver.find_place_by_name_body.
  run_exc. intros H. split_matches H.
  all: injection H as <- _; reflexivity.
Qed.

(** X3: a place [geocode_address] returns is visible, and it lies inside
    the box unless it comes from the geocoder, in which case it is named
    after the input: a record outside the box never carries a venue
    name.  The geocoder is not called when the venue search has an answer,
    and a line fails only when both tiers have none. *)
Theorem geocode_address_answer {World} (gmaps : Api.Client World) lower raw w :
  (forall p w',
      Resolver.geocode_address gmaps lower raw w = (Some p, w') ->
      Resolver.visible p = true /\
      (Bounds.validate_dc_coordinates (Resolver.lat p) (Resolver.lng p) = false ->
       Resolver.name p = strip (before_first comma raw))) /\
  (forall p w',
      Resolver.find_place_by_name gmaps lower raw w = (Some p, w') ->
      Resolver.geocode_address gmaps lower raw w = (Some p, w')) /\
  (forall w2,
      Resolver.geocode_address gmaps lower raw w = (None, w2) <->
      exists w1,
        Resolver.find_place_by_name gmaps lower raw w = (None, w1) /\
        Resolver.geocode_address_fallback gmaps lower raw w1 = (None, w2)).
Proof.
  unfold Resolver.geocode_address. split; [|split].
  - intros p w' H.
    destruct (Resolver.find_place_by_name gmaps lower raw w) as [[q|] w1] eqn:Ev.
    + injection H as -> ->. split.
      * eapply find_place_by_name_visible, Ev.
      * intros Hout. apply find_place_by_name_in_box in Ev. congruence.
    + destruct (Resolver.geocode_address_fallback gmaps lower raw w1) as [[q|] w2] eqn:Eg;
        [|discriminate].
      injection H as -> ->.
      apply geocode_address_fallback_some in Eg as (la & ln & fa & _ & ->).
      simpl. split; [reflexivity|]. intros _. now rewrite split_first.
  - intros p w' ->. reflexivity.
  - intros w2. split.
    + intros H.
      destruct (Resolver.find_place_by_name gmaps lower raw w) as [[q|] w1];
        [discriminate|].
      exists w1. split; [reflexivity|].
      destruct (Resolver.geocode_address_fallback gmaps lower raw w1) as [[q|] w3];
        [discriminate|congruence].
    + intros (w1 & -> & ->). reflexivity.
Qed.

(** ** The calls a run makes *)

Ltac split_goal_matches :=
  repeat match goal with
         | |- context [match ?x with _ => _ end] =>
             lazymatch x with
             | context [match _ with _ => _ end] => fail
             | _ => destruct x eqn:?; cbn beta iota; cbn [fst snd] in *
             end
         end.

Lemma find_place_by_name_calls {World} (gmaps : Api.Client World) lower raw w n :
  exists c,
    Resolver.find_place_by_name (Metered.counting gmaps) lower raw (w, n)
      = (fst (Resolver.find_place_by_name gmaps lower raw w),
         (snd (Resolver.find_place_by_name gmaps lower raw w), (c + n)%nat)) /\
    (1 <= c <= 2)%nat /\
    (fst (Resolver.find_place_by_name gmaps lower raw w) <> None -> c = 2%nat).
Proof.
  unfold Resolver.find_place_by_name, Resolver.find_place_by_name_body.
  run_exc. cbn [Api.places Api.place Metered.counting fst snd].
  split_goal_matches.
  all: cbn [fst snd].
  all: first [ exists 2%nat; split; [reflexivity|]; split; [lia|]; intros _; reflexivity
             | exists 1%nat; split; [reflexivity|]; split; [lia|]; intros Hc; now elim Hc ].
Qed.

Lemma geocode_address_fallback_calls {World} (gmaps : Api.Client World) lower raw w n :
  Resolver.geocode_address_fallback (Metered.counting gmaps) lower raw (w, n)
    = (fst (Resolver.geocode_address_fallback gmaps lower raw w),
       (snd (Resolver.geocode_address_fallback gmaps lower raw w), S n)).
Proof.
  unfold Resolver.geocode_address_fallback, Resolver.geocode_address_fallback_body.
  run_exc. cbn [Api.geocode Metered.counting fst snd].
  split_goal_matches.
  all: reflexivity.
Qed.

Lemma geocode_address_calls {World} (gmaps : Api.Client World) lower raw w n :
  exists c,
    Resolver.geocode_address (Metered.counting gmaps) lower raw (w, n)
      = (fst (Resolver.geocode_address gmaps lower raw w),
         (snd (Resolver.geocode_address gmaps lower raw w), (c + n)%nat)) /\
    (2 <= c <= 3)%nat.
Proof.
  unfold Resolver.geocode_address.
  destruct (find_place_by_name_calls gmaps lower raw w n) as (c & Hv & Hc & Hsome).
  rewrite Hv.
  destruct (Resolver.find_place_by_name gmaps lower raw w) as [[p|] w1]; cbn [fst snd] in *.
  - exists c. split; [reflexivity|]. rewrite Hsome by discriminate. lia.
  - rewrite geocode_address_fallback_calls.
    destruct (Resolver.geocode_address_fallback gmaps lower raw w1) as [[p|] w2];
      cbn [fst snd]; exists (S c); (split; [reflexivity|lia]).
Qed.

(** X4: the calls of a run.  Counting the calls of the client changes
    nothing in what the loop computes, and the loop makes at least two and
    at most three calls for every address: the venue search, the venue
    details if the search has a candidate, the geocoder if the venue tier
    has no answer. *)
Theorem two_or_three_calls_per_address {World} (gmaps : Api.Client World)
    lower raws r w n :
  exists c,
    Pipeline.process_each (Metered.counting gmaps) lower raws r (w, n)
      = (fst (Pipeline.process_each gmaps lower raws r w),
         (snd (Pipeline.process_each gmaps lower raws r w), (c + n)%nat)) /\
    (2 * length raws <= c <= 3 * length raws)%nat.
Proof.
  revert r w n. induction raws as [|raw raws IH]; intros r w n.
  - exists 0%nat. simpl. split; [reflexivity|lia].
  - cbn [Pipeline.process_each]. unfold Pipeline.process_one.
    destruct (geocode_address_calls gmaps lower raw w n) as (c1 & Hc1 & Hb1).
    rewrite Hc1.
    destruct (Resolver.geocode_address gmaps lower raw w) as [[place|] w1];
      cbn [fst snd].
    + destruct (IH {| Pipeline.addresses :=
                        Pipeline.addresses r ++ [Pipeline.with_id place (Pipeline.next_id r)];
                      Pipeline.next_id := Pipeline.next_id r + 1;
                      Pipeline.successful := S (Pipeline.successful r);
                      Pipeline.failed := Pipeline.failed r |} w1 (c1 + n)%nat)
        as (c & Hc & Hb).
      exists (c + c1)%nat. rewrite Hc. split; [|simpl length; lia].
      do 2 f_equal. lia.
    + destruct (IH {| Pipeline.addresses := Pipeline.addresses r;
                      Pipeline.next_id := Pipeline.next_id r;
                      Pipeline.successful := Pipeline.successful r;
                      Pipeline.failed := Pipeline.failed r ++ [raw] |} w1 (c1 + n)%nat)
        as (c & Hc & Hb).
      exists (c + c1)%nat. rewrite Hc. split; [|simpl length; lia].
      do 2 f_equal. lia.
Qed.

(** ** Reading a dataset with a bad row *)

(** X5: [read_existing_addresses] stops at the first row it cannot
    convert: it returns the records of the rows before it, with the
    largest of 0 and their ids, and nothing of that row or of the rows
    after it, well-formed or not. *)
Theorem read_existing_addresses_stops_at_bad_row good bad rest :
  Pipeline.parse_row bad = None ->
  Pipeline.read_existing_addresses
    (Some (map Pipeline.row_of_address good ++ bad :: rest))
  = (good, Pipeline.max_id_of good) /\
  0 <= Pipeline.max_id_of good /\
  Forall (fun a => Pipeline.id a <= Pipeline.max_id_of good) good.
Proof.
  intros Hbad. split; [now apply read_existing_addresses_prefix|].
  apply max_id_of_bound.
Qed.

Lemma read_existing_addresses_stops_at_bad_row_witness :
  let later := {| Pipeline.id := 9; Pipeline.name := lit "Later";
                  Pipeline.address := lit "2 K St"; Pipeline.lat := 38.9%float;
                  Pipeline.lng := (-77.0)%float; Pipeline.visible := true |} in
  let bad := {| Pipeline.row_id := None;
                Pipeline.row_name := Some (lit "No id");
                Pipeline.row_address := Some (lit "1 K St");
                Pipeline.row_lat := Some 38.9%float;
                Pipeline.row_lng := Some (-77.0)%float;
                Pipeline.row_visible := Some true |} in
  fst (Pipeline.read_existing_addresses
         (Some [Fake.old_record; bad; Pipeline.row_of_address later]))
  = [{| Pipeline.id := 5; Pipeline.name := lit "Old Ebbitt Grill";
        Pipeline.address := lit "675 15th St NW, Washington, DC 20005";
        Pipeline.lat := 38.898%float; Pipeline.lng := (-77.0336)%float;
        Pipeline.visible := true |}] /\
  snd (Pipeline.read_existing_addresses
         (Some [Fake.old_record; bad; Pipeline.row_of_address later])) = 5.
Proof.
  intros later bad.
  destruct (read_existing_addresses_stops_at_bad_row
              [{| Pipeline.id := 5; Pipeline.name := lit "Old Ebbitt Grill";
                  Pipeline.address := lit "675 15th St NW, Washington, DC 20005";
                  Pipeline.lat := 38.898%float; Pipeline.lng := (-77.0336)%float;
                  Pipeline.visible := true |}]
              bad [Pipeline.row_of_address later] eq_refl) as (H & _).
  change (map Pipeline.row_of_address _ ++ bad :: [Pipeline.row_of_address later])
    with [Fake.old_record; bad; Pipeline.row_of_address later] in H.
  rewrite H. split; reflexivity.
Defined.



(** ** What a call leaves alone *)

(** X7: a call of [process_addresses] that does not get to the end of
    the loop (exit, uncaught exception, early return) changes no file and
    makes no call to the client.  The dataset file changes only when the
    call completes with a dataset that is not empty, and is then that
    dataset; the script never leaves a dataset file without rows unless it
    found one. *)
Theorem process_addresses_frame {World}
    (connect : str -> option (Api.Client World))
    lower append_mode api_key fs w :
  let out := Pipeline.process_addresses connect lower append_mode api_key fs w in
  let fs' := snd (fst out) in
  ((forall r, fst (fst out) <> Pipeline.Completed r) -> fs' = fs /\ snd out = w) /\
  (Pipeline.csv_file fs' <> Pipeline.csv_file fs ->
   exists r,
     fst (fst out) = Pipeline.Completed r /\
     Pipeline.addresses r <> [] /\
     Pipeline.csv_file fs' = Some (map Pipeline.row_of_address (Pipeline.addresses r))) /\
  (Pipeline.csv_file fs' = Some [] -> Pipeline.csv_file fs = Some []).
Proof.
  intros out fs'. subst out fs'. unfold Pipeline.process_addresses.
  destruct (Pipeline.input_file fs) as [lines|] eqn:Hin; cbn [fst snd];
    [|repeat split; auto; contradiction].
  destruct (Pipeline.read_raw_addresses lines) as [|raw raws]; cbn [fst snd];
    [repeat split; auto; contradiction|].
  destruct (Pipeline.key_set api_key) as [k|]; cbn [fst snd];
    [|repeat split; auto; contradiction].
  destruct (connect k) as [gmaps|]; cbn [fst snd];
    [|repeat split; auto; contradiction].
  destruct (Pipeline.process_each gmaps lower (raw :: raws)
              (Pipeline.start append_mode fs) w) as [r w1].
  cbn [fst snd].
  destruct (write_results_files r fs) as (_ & Hc & _).
  rewrite Hc. split; [|split].
  - intros H. now elim (H r).
  - intros Hne. exists r. split; [reflexivity|].
    destruct (Pipeline.addresses r) as [|a rest]; [congruence|].
    split; [discriminate|reflexivity].
  - destruct (Pipeline.addresses r) as [|a rest]; [auto|discriminate].
Qed.

(** ** The ids of the dataset *)

Lemma number_ids_above first places :
  Forall (fun a => first <= Pipeline.id a) (Pipeline.number first places).
Proof.
  apply Forall_forall. intros a Ha.
  apply (in_map Pipeline.id) in Ha. rewrite number_ids in Ha.
  apply ids_from_bounds in Ha. lia.
Qed.

(** X8: a completed run keeps the ids of the dataset apart.  The ids of an
    overwrite run are distinct; an append run over records with distinct
    ids leaves records with distinct ids; and in both modes the ids are
    positive when the ids loaded are. *)
Theorem run_keeps_ids_distinct {World}
    (connect : str -> option (Api.Client World))
    lower append_mode api_key fs w r fs' w' :
  Pipeline.process_addresses connect lower append_mode api_key fs w
    = (Pipeline.Completed r, fs', w') ->
  let loaded := Pipeline.addresses (Pipeline.start append_mode fs) in
  (append_mode = false -> loaded = []) /\
  (append_mode = true ->
   loaded = fst (Pipeline.read_existing_addresses (Pipeline.csv_file fs))) /\
  (NoDup (map Pipeline.id loaded) -> NoDup (map Pipeline.id (Pipeline.addresses r))) /\
  (Forall (fun a => 1 <= Pipeline.id a) loaded ->
   Forall (fun a => 1 <= Pipeline.id a) (Pipeline.addresses r)).
Proof.
  intros H loaded.
  apply process_addresses_completed in H
    as (lines & k & gmaps & Hin & Hraw & Hkey & Hc & Hp & ->).
  pose proof (process_each_meaning gmaps lower (Pipeline.read_raw_addresses lines)
                (Pipeline.start append_mode fs) w) as Hm.
  destruct (Pipeline.resolve_all gmaps lower (Pipeline.read_raw_addresses lines) w)
    as [answers w1].
  rewrite Hp in Hm. injection Hm as -> _. cbn [Pipeline.addresses].
  assert (Hnext : Forall (fun a => Pipeline.id a < Pipeline.next_id (Pipeline.start append_mode fs))
                    loaded /\ 1 <= Pipeline.next_id (Pipeline.start append_mode fs)).
  { subst loaded. unfold Pipeline.start. destruct append_mode; cbn [negb].
    - destruct (read_existing_addresses_meaning (Pipeline.csv_file fs)) as (Hmax & _).
      destruct (Pipeline.read_existing_addresses (Pipeline.csv_file fs)) as [ex mx].
      cbn [fst snd Pipeline.addresses Pipeline.next_id] in *. subst mx.
      destruct (max_id_of_bound ex) as (H0 & Hall).
      split; [|lia]. eapply Forall_impl; [|exact Hall]. simpl. intros; lia.
    - cbn. split; [constructor|lia]. }
  destruct Hnext as (Hbelow & Hpos).
  split; [|split; [|split]].
  - intros ->. reflexivity.
  - intros ->. subst loaded. unfold Pipeline.start. cbn [negb].
    now destruct (Pipeline.read_existing_addresses (Pipeline.csv_file fs)).
  - intros Hnd. fold loaded. rewrite map_app. apply NoDup_app; [exact Hnd| |].
    + rewrite number_ids. apply ids_from_NoDup.
    + intros i Hi Hi'. rewrite number_ids in Hi'. apply ids_from_bounds in Hi'.
      apply in_map_iff in Hi as (a & <- & Ha).
      rewrite Forall_forall in Hbelow. specialize (Hbelow a Ha). lia.
  - intros Hall. fold loaded. apply Forall_app. split; [exact Hall|].
    eapply Forall_impl; [|apply number_ids_above]. simpl. intros; lia.
Qed.

Lemma run_keeps_ids_distinct_witness :
  let out :=
    Pipeline.process_addresses Fake.connect Fake.lower true Fake.api_key
      (Fake.files ["Smithsonian"; "123 Fake St"] (Some [Fake.old_record]) None) 0%nat in
  let r := Pipeline.run_of (fst (fst out)) in
  map Pipeline.id (Pipeline.addresses r) = [5; 6; 7] /\
  NoDup (map Pipeline.id (Pipeline.addresses r)).
Proof.
  intros out r. split; [reflexivity|].
  destruct (run_keeps_ids_distinct Fake.connect Fake.lower true Fake.api_key
              (Fake.files ["Smithsonian"; "123 Fake St"] (Some [Fake.old_record]) None)
              0%nat r (snd (fst out)) (snd out) eq_refl) as (_ & _ & Hnd & _).
  apply Hnd. repeat constructor. simpl. tauto.
Defined.

(** * Properties of the record-store layer *)

(** ** The next id *)

Lemma fold_left_max (l : list Z) (x : Z) :
  fold_left Z.max l x = fold_right Z.max x l.
Proof.
  assert (H : forall l x y, fold_right Z.max (Z.max x y) l
                            = Z.max y (fold_right Z.max x l)).
  { clear. intros l x y. induction l as [|z l IHl]; simpl; lia. }
  revert x. induction l as [|a l IH]; intros x; simpl; [reflexivity|].
  now rewrite IH, H.
Qed.

Lemma fold_right_max_bounds (x : Z) (l : list Z) :
  x <= fold_right Z.max x l /\
  Forall (fun y => y <= fold_right Z.max x l) l /\
  (fold_right Z.max x l = x \/ In (fold_right Z.max x l) l).
Proof.
  induction l as [|y l (IHx & IHl & IHr)]; simpl.
  - repeat split; [lia|constructor|now left].
  - split; [lia|]. split.
    + constructor; [lia|]. eapply Forall_impl; [|exact IHl]. simpl. intros; lia.
    + destruct (Z.max_spec y (fold_right Z.max x l)) as [[? ->]|[? ->]]; [|auto].
      destruct IHr as [->|IHr]; auto.
Qed.

(** X9: [get_next_id] answers an id above every id of the list, one more
    than an id of the list when there is one and 1 otherwise, which is what
    the merger invariant asks for.  The first id of an append run is the
    same id whenever the dataset read is empty or has an id that is not
    negative, so the two ways of numbering agree there. *)
Theorem get_next_id_above_all addresses :
  Forall (fun a => Pipeline.id a < Server.get_next_id addresses) addresses /\
  (addresses = [] -> Server.get_next_id addresses = 1) /\
  (addresses <> [] ->
   exists a, In a addresses /\ Server.get_next_id addresses = Pipeline.id a + 1) /\
  Pipeline.merger_invariant addresses (Server.get_next_id addresses) /\
  (forall fs,
      addresses = fst (Pipeline.read_existing_addresses (Pipeline.csv_file fs)) ->
      addresses = [] \/ Exists (fun a => 0 <= Pipeline.id a) addresses ->
      Pipeline.next_id (Pipeline.start true fs) = Server.get_next_id addresses).
Proof.
  assert (Hinv : Pipeline.merger_invariant addresses (Server.get_next_id addresses)).
  { destruct addresses as [|first rest]; simpl; [reflexivity|].
    unfold Server.max_id. now rewrite fold_left_max. }
  split; [|split; [|split; [|split]]]; auto.
  - destruct addresses as [|first rest]; [constructor|].
    simpl. unfold Server.max_id. rewrite fold_left_max.
    destruct (fold_right_max_bounds (Pipeline.id first) (map Pipeline.id rest))
      as (Hx & Hl & _).
    constructor; [lia|]. apply Forall_forall. intros a Ha.
    rewrite Forall_forall in Hl. specialize (Hl _ (in_map Pipeline.id _ _ Ha)). lia.
  - intros ->. reflexivity.
  - destruct addresses as [|first rest]; [congruence|]. intros _.
    simpl. unfold Server.max_id. rewrite fold_left_max.
    destruct (fold_right_max_bounds (Pipeline.id first) (map Pipeline.id rest))
      as (_ & _ & [->|Hin]).
    + exists first. split; [now left|reflexivity].
    + apply in_map_iff in Hin as (a & Ha & Hin).
      exists a. split; [now right|]. now rewrite Ha.
  - intros fs Hl Hok. subst addresses.
    pose proof (merger_invariant_append_start fs Hok) as Hstart.
    unfold Pipeline.start in *. cbn [negb] in *.
    destruct (Pipeline.read_existing_addresses (Pipeline.csv_file fs)) as [ex mx].
    cbn [fst Pipeline.addresses Pipeline.next_id] in *.
    unfold Pipeline.merger_invariant in *.
    destruct ex as [|first rest]; congruence.
Qed.

(** ** Reading the dataset in the server *)

Lemma parse_rows_none rows :
  Server.parse_rows rows = None <->
  Exists (fun row => Pipeline.parse_row row = None) rows.
Proof.
  induction rows as [|row rows IH]; simpl.
  - split; [discriminate|inversion 1].
  - destruct (Pipeline.parse_row row) as [a|] eqn:E.
    + destruct (Server.parse_rows rows) as [l|].
      * split; [discriminate|]. intros H. inversion H as [? ? Hr|? ? Hr]; subst.
        -- congruence.
        -- now apply IH in Hr.
      * split; [|reflexivity]. intros _. apply Exists_cons_tl. now apply IH.
    + split; [|reflexivity]. intros _. now apply Exists_cons_hd.
Qed.

Lemma parse_rows_some rows addresses :
  Server.parse_rows rows = Some addresses ->
  rows = map Pipeline.row_of_address addresses.
Proof.
  revert addresses. induction rows as [|row rows IH]; simpl; intros addresses H.
  - now injection H as <-.
  - destruct (Pipeline.parse_row row) as [a|] eqn:E; [|discriminate].
    destruct (Server.parse_rows rows) as [l|]; [|discriminate].
    injection H as <-. simpl.
    now rewrite (parse_row_inverse _ _ E), (IH l eq_refl).
Qed.

Lemma read_addresses_good fs rows :
  Pipeline.csv_file fs = Some rows ->
  Forall (fun row => Pipeline.parse_row row <> None) rows ->
  map Pipeline.row_of_address (Server.read_addresses fs) = rows.
Proof.
  intros Hcsv Hall. unfold Server.read_addresses. rewrite Hcsv.
  destruct (Server.parse_rows rows) as [l|] eqn:E.
  - symmetry. now apply parse_rows_some.
  - apply parse_rows_none in E. apply Exists_exists in E as (row & Hin & Hnone).
    rewrite Forall_forall in Hall. now elim (Hall row Hin).
Qed.

Lemma read_addresses_bad fs rows :
  Pipeline.csv_file fs = Some rows ->
  Exists (fun row => Pipeline.parse_row row = None) rows ->
  Server.read_addresses fs = [].
Proof.
  intros Hcsv Hbad. unfold Server.read_addresses. rewrite Hcsv.
  apply parse_rows_none in Hbad. now rewrite Hbad.
Qed.

(** X10: [read_addresses] is all or nothing.  When every row of the
    dataset converts, it returns the records of all the rows, in order;
    when one row does not convert it returns no record at all, where
    [read_existing_addresses] of the script keeps the records before that
    row. *)
Theorem read_addresses_all_or_nothing fs rows :
  Pipeline.csv_file fs = Some rows ->
  (Forall (fun row => Pipeline.parse_row row <> None) rows ->
   map Pipeline.row_of_address (Server.read_addresses fs) = rows /\
   Server.read_addresses fs = fst (Pipeline.read_existing_addresses (Some rows))) /\
  (Exists (fun row => Pipeline.parse_row row = None) rows ->
   Server.read_addresses fs = [] /\
   exists good bad rest,
     rows = map Pipeline.row_of_address good ++ bad :: rest /\
     Pipeline.parse_row bad = None /\
     fst (Pipeline.read_existing_addresses (Some rows)) = good).
Proof.
  intros Hcsv. split.
  - intros Hall. split; [now apply read_addresses_good|].
    destruct (read_existing_addresses_meaning (Some rows)) as (_ & _ & Hrows).
    destruct (Hrows rows eq_refl) as (rest & Hr & [->|(bad & rest' & -> & Hbad)]).
    + rewrite app_nil_r in Hr.
      pose proof (read_addresses_good fs rows Hcsv Hall) as Hg.
      assert (Hinj : forall l l', map Pipeline.row_of_address l
                                  = map Pipeline.row_of_address l' -> l = l').
      { induction l as [|a l IHl]; intros [|b l'] E; try discriminate; [reflexivity|].
        pose proof (f_equal (@tl _) E) as El.
        pose proof (f_equal (fun rs => match rs with
                                       | r :: _ => Pipeline.parse_row r
                                       | [] => None
                                       end) E) as Ea.
        cbn [map tl] in El, Ea. rewrite !parse_row_of_address in Ea.
        f_equal; [congruence|now apply IHl]. }
      apply Hinj. now rewrite Hg.
    + rewrite Forall_forall in Hall. elim (Hall bad); [|exact Hbad].
      rewrite Hr. apply in_or_app. right. now left.
  - intros Hbad. split; [now apply (read_addresses_bad fs rows)|].
    destruct (read_existing_addresses_meaning (Some rows)) as (_ & _ & Hrows).
    destruct (Hrows rows eq_refl) as (rest & Hr & [->|(bad & rest' & -> & Hb)]).
    + rewrite app_nil_r in Hr. apply Exists_exists in Hbad as (row & Hin & Hnone).
      rewrite Hr in Hin. apply in_map_iff in Hin as (a & <- & _).
      rewrite parse_row_of_address in Hnone. discriminate.
    + eexists. exists bad, rest'. split; [exact Hr|]. split; [exact Hb|reflexivity].
Qed.

Lemma read_addresses_all_or_nothing_witness :
  let bad := {| Pipeline.row_id := Some 6;
                Pipeline.row_name := Some (lit "Bad flag");
                Pipeline.row_address := Some (lit "1 K St");
                Pipeline.row_lat := Some 38.9%float;
                Pipeline.row_lng := Some (-77.0)%float;
                Pipeline.row_visible := None |} in
  let fs := Fake.files [] (Some [Fake.old_record; bad]) None in
  Server.read_addresses fs = [] /\
  map Pipeline.id (fst (Pipeline.read_existing_addresses (Pipeline.csv_file fs))) = [5] /\
  map Pipeline.id (Server.read_addresses (Fake.files [] (Some [Fake.old_record]) None))
    = [5].
Proof.
  intros bad fs.
  destruct (read_addresses_all_or_nothing fs [Fake.old_record; bad] eq_refl)
    as (_ & Hbad).
  destruct Hbad as (Hnone & _).
  { apply Exists_cons_tl, Exists_cons_hd. reflexivity. }
  split; [exact Hnone|]. split; reflexivity.
Defined.

(** ** Creating a record *)

Lemma get_next_id_above addresses :
  Forall (fun a => Pipeline.id a < Server.get_next_id addresses) addresses.
Proof.
  destruct addresses as [|first rest]; [constructor|].
  simpl. unfold Server.max_id. rewrite fold_left_max.
  destruct (fold_right_max_bounds (Pipeline.id first) (map Pipeline.id rest))
    as (Hx & Hl & _).
  constructor; [lia|]. apply Forall_forall. intros a Ha.
  rewrite Forall_forall in Hl. specialize (Hl _ (in_map Pipeline.id _ _ Ha)). lia.
Qed.

(** X11: [create_address] on a dataset whose rows all convert, or on no
    dataset file: the rows that were there stay as they are and in place,
    one row is added at the end for the new record, which is visible and has
    an id above every id of the dataset, so distinct ids stay distinct; the
    other files are not touched. *)
Theorem create_address_appends address fs rows :
  Pipeline.csv_file fs = Some rows \/ (Pipeline.csv_file fs = None /\ rows = []) ->
  Forall (fun row => Pipeline.parse_row row <> None) rows ->
  let created := fst (Server.create_address address fs) in
  let fs' := snd (Server.create_address address fs) in
  Pipeline.csv_file fs' = Some (rows ++ [Pipeline.row_of_address created]) /\
  Pipeline.input_file fs' = Pipeline.input_file fs /\
  Pipeline.failed_file fs' = Pipeline.failed_file fs /\
  Pipeline.visible created = true /\
  Pipeline.place_of created
    = {| Resolver.name := Server.create_name address;
         Resolver.address := Server.create_address_text address;
         Resolver.lat := Server.create_lat address;
         Resolver.lng := Server.create_lng address;
         Resolver.visible := true |} /\
  Forall (fun a => Pipeline.id a < Pipeline.id created) (Server.read_addresses fs) /\
  (NoDup (map Pipeline.id (Server.read_addresses fs)) ->
   NoDup (map Pipeline.id (Server.read_addresses fs ++ [created]))).
Proof.
  intros Hcsv Hall created fs'. subst created fs'.
  assert (Hrows : map Pipeline.row_of_address (Server.read_addresses fs) = rows).
  { destruct Hcsv as [Hcsv|(Hcsv & ->)]; [now apply read_addresses_good|].
    unfold Server.read_addresses. now rewrite Hcsv. }
  unfold Server.create_address, Server.write_addresses.
  cbn [fst snd Pipeline.csv_file Pipeline.input_file Pipeline.failed_file
       Pipeline.visible Pipeline.id].
  rewrite map_app, Hrows.
  repeat split; try reflexivity.
  - apply get_next_id_above.
  - intros Hnd. rewrite map_app. apply NoDup_app; [exact Hnd| |].
    + repeat constructor. simpl. tauto.
    + intros i Hi [<-|[]]. apply in_map_iff in Hi as (a & Ha & Hin).
      pose proof (get_next_id_above (Server.read_addresses fs)) as Hab.
      rewrite Forall_forall in Hab. specialize (Hab a Hin). simpl in Ha. lia.
Qed.

Lemma create_address_appends_witness :
  let address := {| Server.create_name := lit "The Tombs";
                    Server.create_address_text := lit "1226 36th St NW";
                    Server.create_lat := 38.9076%float;
                    Server.create_lng := (-77.0703)%float |} in
  let fs := Fake.files [] (Some [Fake.old_record]) None in
  let created := fst (Server.create_address address fs) in
  Pipeline.id created = 6 /\
  Pipeline.csv_file (snd (Server.create_address address fs))
    = Some [Fake.old_record; Pipeline.row_of_address created].
Proof.
  intros address fs created. split; [reflexivity|].
  destruct (create_address_appends address fs [Fake.old_record]
              (or_introl eq_refl)) as (Hcsv & _).
  { repeat constructor. discriminate. }
  exact Hcsv.
Defined.

(** X12: [create_address] on a dataset with a row that does not convert:
    [read_addresses] gives nothing, so the new record gets the id 1 and
    the dataset file is rewritten with that record alone; every row that
    was there is gone. *)
Theorem create_address_over_bad_row address fs rows :
  Pipeline.csv_file fs = Some rows ->
  Exists (fun row => Pipeline.parse_row row = None) rows ->
  let created := fst (Server.create_address address fs) in
  Pipeline.id created = 1 /\
  Pipeline.csv_file (snd (Server.create_address address fs))
    = Some [Pipeline.row_of_address created].
Proof.
  intros Hcsv Hbad created. subst created.
  unfold Server.create_address. rewrite (read_addresses_bad fs rows Hcsv Hbad).
  split; reflexivity.
Qed.

Lemma create_address_over_bad_row_witness :
  let address := {| Server.create_name := lit "The Tombs";
                    Server.create_address_text := lit "1226 36th St NW";
                    Server.create_lat := 38.9076%float;
                    Server.create_lng := (-77.0703)%float |} in
  let bad := {| Pipeline.row_id := None;
                Pipeline.row_name := Some (lit "No id");
                Pipeline.row_address := Some (lit "1 K St");
                Pipeline.row_lat := Some 38.9%float;
                Pipeline.row_lng := Some (-77.0)%float;
                Pipeline.row_visible := Some true |} in
  let fs := Fake.files [] (Some [Fake.old_record; bad]) None in
  map Pipeline.row_id
    (match Pipeline.csv_file (snd (Server.create_address address fs)) with
     | Some rows => rows
     | None => []
     end) = [Some 1].
Proof.
  intros address bad fs.
  destruct (create_address_over_bad_row address fs [Fake.old_record; bad] eq_refl)
    as (Hid & Hcsv).
  { apply Exists_cons_tl, Exists_cons_hd. reflexivity. }
  rewrite Hcsv. cbn [map Pipeline.row_of_address Pipeline.row_id]. now rewrite Hid.
Defined.

(** ** Deleting a record *)

Lemma filter_length_all {A} (f : A -> bool) (l : list A) :
  length (filter f l) = length l <-> Forall (fun a => f a = true) l.
Proof.
  split.
  - intros H. apply filter_length_forallb in H.
    apply Forall_forall. now apply forallb_forall.
  - intros H. induction H as [|a l Ha _ IH]; simpl; [reflexivity|].
    rewrite Ha. simpl. now rewrite IH.
Qed.

(** X13: [delete_address] answers 404 and writes nothing exactly when no
    record read has the id.  Otherwise it rewrites the dataset with the
    records of the other ids, as they were and in their order; every
    record with the id is removed, and the other files are not touched. *)
Theorem delete_address_removes_id address_id fs :
  let answer := fst (Server.delete_address address_id fs) in
  let fs' := snd (Server.delete_address address_id fs) in
  let kept := filter (fun a => negb (Pipeline.id a =? address_id))
                (Server.read_addresses fs) in
  (answer = Server.HTTPException 404 <->
   ~ In address_id (map Pipeline.id (Server.read_addresses fs))) /\
  (answer = Server.HTTPException 404 -> fs' = fs) /\
  (answer <> Server.HTTPException 404 ->
   answer = Server.Ok tt /\
   Pipeline.csv_file fs' = Some (map Pipeline.row_of_address kept) /\
   Pipeline.input_file fs' = Pipeline.input_file fs /\
   Pipeline.failed_file fs' = Pipeline.failed_file fs) /\
  ~ In address_id (map Pipeline.id kept) /\
  (forall a, In a kept <-> In a (Server.read_addresses fs) /\ Pipeline.id a <> address_id) /\
  (length kept < length (Server.read_addresses fs) \/ kept = Server.read_addresses fs)%nat.
Proof.
  intros answer fs' kept. subst answer fs'. unfold Server.delete_address. fold kept.
  assert (Hin : forall a, In a kept <->
                          In a (Server.read_addresses fs) /\ Pipeline.id a <> address_id).
  { intros a. subst kept. rewrite filter_In, negb_true_iff, Z.eqb_neq. reflexivity. }
  assert (Hall : length kept = length (Server.read_addresses fs) <->
                 ~ In address_id (map Pipeline.id (Server.read_addresses fs))).
  { subst kept. rewrite filter_length_all, Forall_forall. split.
    - intros H Hi. apply in_map_iff in Hi as (a & Ha & Hi).
      specialize (H a Hi). apply negb_true_iff, Z.eqb_neq in H. congruence.
    - intros H a Ha. apply negb_true_iff, Z.eqb_neq. intros E.
      apply H. rewrite <- E. now apply in_map. }
  destruct (Nat.eqb_spec (length kept) (length (Server.read_addresses fs))) as [E|E];
    cbn [fst snd].
  - split; [split; [intros _; now apply Hall|reflexivity]|].
    split; [reflexivity|]. split; [congruence|].
    split; [|split; [exact Hin|]].
    + intros Hi. apply in_map_iff in Hi as (a & Ha & Hi). apply Hin in Hi. tauto.
    + right. subst kept. clear Hin Hall.
      induction (Server.read_addresses fs) as [|a l IH]; [reflexivity|].
      simpl in *. destruct (negb (Pipeline.id a =? address_id)); simpl in *.
      * f_equal. apply IH. lia.
      * pose proof (filter_length_le (fun a => negb (Pipeline.id a =? address_id)) l). lia.
  - split; [split; [discriminate|]|].
    + intros H. now apply Hall in H.
    + split; [discriminate|]. split; [intros _; repeat split; reflexivity|].
      split; [|split; [exact Hin|]].
      * intros Hi. apply in_map_iff in Hi as (a & Ha & Hi). apply Hin in Hi. tauto.
      * left. pose proof (filter_length_le (fun a => negb (Pipeline.id a =? address_id))
                            (Server.read_addresses fs)). fold kept in H. lia.
Qed.

(** ** Updating a record *)

Lemma update_first_none address_id update addresses :
  Server.update_first address_id update addresses = None <->
  ~ In address_id (map Pipeline.id addresses).
Proof.
  induction addresses as [|a l IH]; simpl; [tauto|].
  destruct (Z.eqb_spec (Pipeline.id a) address_id) as [E|E].
  - split; [discriminate|]. intros H. elim H. now left.
  - destruct (Server.update_first address_id update l) as [[found rest]|].
    + split; [discriminate|]. intros H. exfalso.
      assert (Hn : ~ In address_id (map Pipeline.id l)) by tauto.
      apply IH in Hn. discriminate.
    + split; [|reflexivity]. intros _ [H|H]; [congruence|].
      now apply (proj1 IH).
Qed.

Lemma update_first_match address_id update pre a post :
  Pipeline.id a = address_id ->
  ~ In address_id (map Pipeline.id pre) ->
  Server.update_first address_id update (pre ++ a :: post)
  = Some (Server.apply_update update a, pre ++ Server.apply_update update a :: post).
Proof.
  intros Ha. induction pre as [|b pre IH]; simpl; intros Hpre.
  - apply Z.eqb_eq in Ha. now rewrite Ha.
  - destruct (Z.eqb_spec (Pipeline.id b) address_id) as [E|E]; [tauto|].
    rewrite IH by tauto. reflexivity.
Qed.

(** X14: [update_address] answers 404 and writes nothing exactly when no
    record read has the id.  Otherwise the first record with the id, and
    no other, takes the fields the request gives and keeps the others and
    its id; the dataset is rewritten with the records in their order, and
    the changed record is the answer.  A request without fields changes no
    record. *)
Theorem update_address_changes_first_match address_id update fs :
  let answer := fst (Server.update_address address_id update fs) in
  let fs' := snd (Server.update_address address_id update fs) in
  (answer = Server.HTTPException 404 <->
   ~ In address_id (map Pipeline.id (Server.read_addresses fs))) /\
  (answer = Server.HTTPException 404 -> fs' = fs) /\
  (forall pre a post,
      Server.read_addresses fs = pre ++ a :: post ->
      Pipeline.id a = address_id ->
      ~ In address_id (map Pipeline.id pre) ->
      let changed := Server.apply_update update a in
      answer = Server.Ok changed /\
      Pipeline.csv_file fs'
        = Some (map Pipeline.row_of_address (pre ++ changed :: post)) /\
      Pipeline.input_file fs' = Pipeline.input_file fs /\
      Pipeline.failed_file fs' = Pipeline.failed_file fs /\
      Pipeline.id changed = address_id /\
      Pipeline.name changed
        = match Server.update_name update with
          | Some n => n | None => Pipeline.name a end /\
      Pipeline.address changed
        = match Server.update_address_text update with
          | Some t => t | None => Pipeline.address a end /\
      Pipeline.lat changed
        = match Server.update_lat update with
          | Some l => l | None => Pipeline.lat a end /\
      Pipeline.lng changed
        = match Server.update_lng update with
          | Some l => l | None => Pipeline.lng a end /\
      Pipeline.visible changed
        = match Server.update_visible update with
          | Some v => v | None => Pipeline.visible a end) /\
  (forall a,
      Server.apply_update
        {| Server.update_name := None; Server.update_address_text := None;
           Server.update_lat := None; Server.update_lng := None;
           Server.update_visible := None |} a = a).
Proof.
  intros answer fs'. subst answer fs'. unfold Server.update_address.
  split; [|split; [|split]].
  - rewrite <- (update_first_none address_id update).
    destruct (Server.update_first address_id update (Server.read_addresses fs))
      as [[found rest]|]; cbn [fst]; split; try discriminate; reflexivity.
  - destruct (Server.update_first address_id update (Server.read_addresses fs))
      as [[found rest]|]; cbn [fst snd]; [discriminate|reflexivity].
  - intros pre a post Hread Ha Hpre. cbv zeta.
    rewrite Hread, (update_first_match address_id update pre a post Ha Hpre).
    cbn [fst snd]. repeat split; try reflexivity. exact Ha.
  - intros [i n ad la ln v]. reflexivity.
Qed.

Lemma update_address_changes_first_match_witness :
  let hide := {| Server.update_name := None; Server.update_address_text := None;
                 Server.update_lat := None; Server.update_lng := None;
                 Server.update_visible := Some false |} in
  let fs := Fake.files [] (Some [Fake.old_record]) None in
  map Pipeline.row_visible
    (match Pipeline.csv_file (snd (Server.update_address 5 hide fs)) with
     | Some rows => rows
     | None => []
     end) = [Some false] /\
  fst (Server.update_address 7 hide fs) = Server.HTTPException 404.
Proof.
  intros hide fs.
  destruct (update_address_changes_first_match 5 hide fs) as (_ & _ & Hfound & _).
  destruct (update_address_changes_first_match 7 hide fs) as (Hmissing & _).
  split.
  - destruct (Hfound [] {| Pipeline.id := 5; Pipeline.name := lit "Old Ebbitt Grill";
                           Pipeline.address := lit "675 15th St NW, Washington, DC 20005";
                           Pipeline.lat := 38.898%float; Pipeline.lng := (-77.0336)%float;
                           Pipeline.visible := true |} [] eq_refl eq_refl)
      as (_ & Hcsv & _).
    { simpl. tauto. }
    rewrite Hcsv. reflexivity.
  - apply Hmissing. simpl. intros [H|[]]. discriminate.
Defined.

(** ** Running the script from the server *)

Lemma run_script_meaning {World} (connect : str -> option (Api.Client World))
    lower api_key fs w :
  let out := Pipeline.process_addresses connect lower false api_key fs w in
  Server.run_script connect lower api_key fs w
  = (match fst (fst out) with
     | Pipeline.SysExit code => code
     | Pipeline.Uncaught => 1
     | _ => 0
     end, snd (fst out), snd out).
Proof.
  unfold Server.run_script.
  destruct (Pipeline.process_addresses connect lower false api_key fs w)
    as [[[code| | |r] fs'] w']; reflexivity.
Qed.

(** X15: the handler of [POST /api/addresses/process] answers 404, and
    runs nothing, exactly when the raw input is missing.  It answers 500
    exactly when the input has an address and the API key is unset, empty
    or refused by the client library; no file has changed then and no call
    was made.  In every other case it answers OK, and the files and the
    world are those an overwrite run of the script leaves. *)
Theorem process_endpoint_status {World} (connect : str -> option (Api.Client World))
    lower api_key fs w :
  let out := Server.process_addresses connect lower api_key fs w in
  let answer := fst (fst out) in
  (answer = Server.HTTPException 404 <-> Pipeline.input_file fs = None) /\
  (answer = Server.HTTPException 500 <->
   exists lines,
     Pipeline.input_file fs = Some lines /\
     Pipeline.read_raw_addresses lines <> [] /\
     (Pipeline.key_set api_key = None \/
      exists k, Pipeline.key_set api_key = Some k /\ connect k = None)) /\
  (answer <> Server.Ok tt -> snd (fst out) = fs /\ snd out = w) /\
  (answer = Server.Ok tt ->
   (snd (fst out), snd out)
   = (snd (fst (Pipeline.process_addresses connect lower false api_key fs w)),
      snd (Pipeline.process_addresses connect lower false api_key fs w))) /\
  (answer = Server.HTTPException 404 \/ answer = Server.HTTPException 500 \/
   answer = Server.Ok tt).
Proof.
  intros out answer. subst answer out. unfold Server.process_addresses.
  destruct (Pipeline.input_file fs) as [lines|] eqn:Hin; cbn [fst snd].
  2:{ repeat split; auto; try discriminate.
      intros (lines & Hl & _). discriminate. }
  rewrite run_script_meaning. cbv zeta.
  unfold Pipeline.process_addresses. rewrite Hin.
  destruct (Pipeline.read_raw_addresses lines) as [|raw raws] eqn:Hraw; cbn [fst snd Z.eqb].
  { repeat split; auto; try discriminate; try congruence.
    intros (lines' & [= <-] & Hne & _). congruence. }
  destruct (Pipeline.key_set api_key) as [k|] eqn:Hkey; cbn [fst snd Z.eqb].
  2:{ repeat split; auto; try discriminate.
      intros _. exists lines. repeat split; auto. congruence. }
  destruct (connect k) as [gmaps|] eqn:Hc; cbn [fst snd Z.eqb].
  2:{ repeat split; auto; try discriminate.
      intros _. exists lines. repeat split; [congruence|]. right. now exists k. }
  destruct (Pipeline.process_each gmaps lower (raw :: raws) (Pipeline.start false fs) w)
    as [r w1]. cbn [fst snd Z.eqb].
  repeat split; auto; try discriminate; try congruence.
  intros (lines' & _ & _ & [Hk|(k' & Hk & Hc')]); congruence.
Qed.

(** X16: [startup_event] leaves everything as it is when the dataset file
    exists or the raw input is missing, and makes no call then.  Otherwise
    it leaves what an overwrite run of the script leaves, whether the
    script fails or not: the raw input is never changed, and a dataset file
    there after the startup holds the records resolved by that run. *)
Theorem startup_event_only_fills_missing_dataset {World}
    (connect : str -> option (Api.Client World))
    lower api_key fs w :
  let after := Server.startup_event connect lower api_key fs w in
  let run := Pipeline.process_addresses connect lower false api_key fs w in
  (Pipeline.csv_file fs <> None \/ Pipeline.input_file fs = None -> after = (fs, w)) /\
  (Pipeline.csv_file fs = None -> Pipeline.input_file fs <> None ->
   after = (snd (fst run), snd run)) /\
  Pipeline.input_file (fst after) = Pipeline.input_file fs /\
  (Pipeline.csv_file fs = None ->
   forall rows, Pipeline.csv_file (fst after) = Some rows ->
     exists r,
       fst (fst run) = Pipeline.Completed r /\
       Pipeline.addresses r <> [] /\
       rows = map Pipeline.row_of_address (Pipeline.addresses r) /\
       exists lines k gmaps,
         Pipeline.input_file fs = Some lines /\
         Pipeline.key_set api_key = Some k /\ connect k = Some gmaps /\
         map Pipeline.place_of (Pipeline.addresses r)
         = Pipeline.resolved_of
             (fst (Pipeline.resolve_all gmaps lower
                     (Pipeline.read_raw_addresses lines) w))).
Proof.
  intros after run. subst after run. unfold Server.startup_event.
  destruct (Pipeline.csv_file fs) as [rows0|] eqn:Hcsv.
  { cbn [fst]. repeat split; auto; discriminate. }
  destruct (Pipeline.input_file fs) as [lines|] eqn:Hin.
  2:{ cbn [fst]. repeat split; auto; congruence. }
  rewrite run_script_meaning. cbv zeta.
  destruct (Pipeline.process_addresses connect lower false api_key fs w)
    as [[o fs'] w'] eqn:Hrun. cbn [fst snd].
  assert (Hframe : Pipeline.input_file fs' = Pipeline.input_file fs /\
                   (forall rows, Pipeline.csv_file fs' = Some rows ->
                      exists r, o = Pipeline.Completed r /\
                                Pipeline.addresses r <> [] /\
                                rows = map Pipeline.row_of_address (Pipeline.addresses r))).
  { destruct o as [code| | |r].
    1-3: (unfold Pipeline.process_addresses in Hrun; rewrite Hin in Hrun;
          destruct (Pipeline.read_raw_addresses lines);
          [|destruct (Pipeline.key_set api_key) as [k|];
            [destruct (connect k) as [gmaps|];
             [destruct (Pipeline.process_each gmaps lower _ _ w)|]|]];
          try discriminate; injection Hrun as <- <-;
          split; [congruence|]; intros rows E; congruence).
    apply process_addresses_completed in Hrun
      as (lines' & k & gmaps & _ & _ & _ & _ & _ & ->).
    destruct (write_results_files r fs) as (Hi & Hc & _).
    split; [congruence|]. intros rows E. rewrite Hc, Hcsv in E.
    exists r. split; [reflexivity|].
    destruct (Pipeline.addresses r) as [|a rest]; [discriminate|].
    split; [discriminate|]. now injection E as <-. }
  destruct Hframe as (Hinput & Hrows).
  split; [intros [H|H]; congruence|]. split; [reflexivity|].
  split; [congruence|].
  intros _ rows E. destruct (Hrows rows E) as (r & -> & Hne & ->).
  exists r. repeat split; auto.
  apply process_addresses_completed in Hrun
    as (lines' & k & gmaps & Hin' & _ & Hkey & Hc & Hp & _).
  exists lines', k, gmaps. rewrite Hin in Hin'. injection Hin' as <-.
  repeat split; auto.
  pose proof (process_each_meaning gmaps lower (Pipeline.read_raw_addresses lines)
                (Pipeline.start false fs) w) as Hm.
  destruct (Pipeline.resolve_all gmaps lower (Pipeline.read_raw_addresses lines) w)
    as [answers w1].
  rewrite Hp in Hm. injection Hm as -> _. cbn. apply place_of_number.
Qed.

(** ** What the venue tier returns *)

Lemma str_eqb_eq a b : Str.eqb a b = true <-> a = b.
Proof.
  unfold Str.eqb. destruct (list_eq_dec N.eq_dec a b); split; congruence.
Qed.

(** X17: the venue tier returns a place exactly when the search is OK with
    a first candidate that has a place id, the details of that candidate
    are OK and carry coordinates, and the coordinates are inside the box.
    The place then has the name and the formatted address of the details
    (empty when the details have none), never the text of the input, and
    the coordinates of the details. *)
Theorem find_place_by_name_answer {World} (gmaps : Api.Client World)
    lower raw w p w2 :
  Resolver.find_place_by_name gmaps lower raw w = (Some p, w2) <->
  exists d la ln,
    (exists pr c cs pid dr g l w1,
        Api.places gmaps (Resolver.with_city lower raw) w = (Some pr, w1) /\
        Api.places_status pr = Some (lit "OK") /\
        Api.results pr = Some (c :: cs) /\
        Api.place_id c = Some pid /\
        Api.place gmaps pid w1 = (Some dr, w2) /\
        Api.details_status dr = Some (lit "OK") /\
        Api.result dr = Some d /\
        Api.geometry d = Some g /\
        Api.location g = Some l /\
        Api.lat l = Some la /\
        Api.lng l = Some ln) /\
    Bounds.validate_dc_coordinates la ln = true /\
    p = {| Resolver.name := match Api.name d with Some n => n | None => [] end;
           Resolver.address :=
             match Api.formatted_address d with Some a => a | None => [] end;
           Resolver.lat := la; Resolver.lng := ln; Resolver.visible := true |}.
Proof.
  split.
  - unfold Resolver.find_place_by_name, Resolver.find_place_by_name_body.
    run_exc. intros H.
    destruct (Api.places gmaps (Resolver.with_city lower raw) w) as [[pr|] w1] eqn:Ep;
      [|discriminate].
    destruct (Api.places_status pr) as [status|] eqn:Es; [|discriminate].
    destruct (Resolver.is_ok status && Resolver.truthy_results (Api.results pr)) eqn:Eok;
      [|discriminate].
    apply andb_prop in Eok as (Eok & _). apply str_eqb_eq in Eok. subst status.
    destruct (Api.results pr) as [[|c cs]|] eqn:Er; try discriminate.
    destruct (Api.place_id c) as [pid|] eqn:Eid; [|discriminate].
    destruct (Api.place gmaps pid w1) as [[dr|] w3] eqn:Ed; [|discriminate].
    destruct (Api.details_status dr) as [dstatus|] eqn:Eds; [|discriminate].
    destruct (Resolver.is_ok dstatus) eqn:Edok; [|discriminate].
    apply str_eqb_eq in Edok. subst dstatus.
    destruct (Api.result dr) as [d|] eqn:Eres; [|discriminate].
    destruct (Api.geometry d) as [g|] eqn:Eg; [|discriminate].
    destruct (Api.location g) as [l|] eqn:El; [|discriminate].
    destruct (Api.lat l) as [la|] eqn:Ela; [|discriminate].
    destruct (Api.lng l) as [ln|] eqn:Eln; [|discriminate].
    destruct (Bounds.validate_dc_coordinates la ln) eqn:Ev; [|discriminate].
    cbn [negb] in H. injection H as <- <-.
    exists d, la, ln. split; [|split; [exact Ev|reflexivity]].
    exists pr, c, cs, pid, dr, g, l, w1. repeat split; assumption.
  - intros (d & la & ln & (pr & c & cs & pid & dr & g & l & w1 &
              Hp & Hs & Hr & Hid & Hd & Hds & Hres & Hg & Hl & Hla & Hln) & Hv & ->).
    unfold Resolver.find_place_by_name, Resolver.find_place_by_name_body.
    run_exc. rewrite Hp, Hs, Hr. simpl. rewrite Hid, Hd, Hds. simpl.
    rewrite Hres, Hg, Hl, Hla, Hln, Hv. reflexivity.
Qed.

(** ** What the geocode fallback returns *)

(** X18: the geocode fallback returns a record exactly when the geocoder
    answers with a first result that carries coordinates and a formatted
    address; the record has these, whatever the box, and it is visible.
    Later results of the geocoder play no part. *)
Theorem geocode_address_fallback_answer {World} (gmaps : Api.Client World)
    lower raw w p w1 :
  Resolver.geocode_address_fallback gmaps lower raw w = (Some p, w1) <->
  exists la ln fa,
    Resolver.geocoder_answer gmaps lower raw w la ln fa w1 /\
    p = {| Resolver.name := strip (before_first comma raw);
           Resolver.address := fa;
           Resolver.lat := la; Resolver.lng := ln;
           Resolver.visible := true |}.
Proof.
  split.
  - intros H. apply geocode_address_fallback_some in H as (la & ln & fa & Hans & ->).
    exists la, ln, fa. split; [exact Hans|]. now rewrite split_first.
  - intros (la & ln & fa & (gr & rest & g & l & Hg & Hgeo & Hl & Hla & Hln & Hfa) & ->).
    unfold Resolver.geocode_address_fallback, Resolver.geocode_address_fallback_body.
    run_exc. rewrite Hg, Hgeo, Hl, Hla, Hln, Hfa, split_first. reflexivity.
Qed.
